(** * Bounded-size sequential export pipeline: 00_data_prep.ipynb

    A shallow embedding of the two functions of the notebook
    [agents-and-function-calling/agent-code-interpreter/00_data_prep.ipynb]:

    - [download_nyc_taxi_data] (the partition fetcher), and
    - [write_csv_with_size_limit] (the bounded table exporter),

    together with the part of their environment they act on: a file
    system, the HTTP endpoint, the console and the logger.  Python
    integers are [Z], byte contents are [list byte], the size limit (a
    Python number of megabytes) is a rational [Q], and exceptions are an
    explicit outcome threaded through a small state-and-error monad. *)

From Stdlib Require Import ZArith QArith Lia Lqa.
From Stdlib Require Import Strings.String Strings.Ascii Strings.Byte.
From stdpp Require Import gmap strings list fin_maps pretty.

Local Open Scope Z_scope.

(** ** Exceptions *)

(** The Python exceptions the two functions can meet.  All of them derive
    from [Exception] except [KeyboardInterrupt], which derives from
    [BaseException] only. *)
Inductive exn : Type :=
| FileNotFoundError (path : string)
| OSError (message : string)
| ConnectionError (url : string)
| UnboundLocalError (name : string)
| OverflowError (message : string)
| KeyboardInterrupt.

(** [isinstance(e, Exception)]: what an [except Exception] clause catches. *)
Definition is_Exception (e : exn) : bool :=
  match e with
  | KeyboardInterrupt => false
  | _ => true
  end.


(** ** The environment *)

(** File open modes used by the notebook: ['w'] / ['wb'] and ['a']. *)
Inductive open_mode : Type := ModeW | ModeA.

(** Calls that leave the process, in the order they were made. *)
Inductive io_event : Type :=
| EvHttpGet (url : string)
| EvMakedirs (path : string)
| EvWrite (path : string) (mode : open_mode) (nbytes : Z)
| EvGetsize (path : string).

(** What the notebook writes with [print] and with [logger].  Each
    constructor stands for one message template of the source; sizes are
    kept in bytes (the source formats them in MB with two decimals). *)
Inductive message : Type :=
| MsgDownloading (file_name : string)
    (* print(f"Downloading {file_name}...") *)
| MsgDownloaded (file_name : string)
    (* print(f"Successfully downloaded {file_name}") *)
| MsgFailed (file_name : string) (status_code : Z)
    (* print(f"Failed to download {file_name}. Status code: ...") *)
| InfoReachedLimit (size_bytes : Z)
    (* logger.info(f"Reached size limit. Current file size: ...") *)
| InfoFinalSize (size_bytes : Z)
    (* logger.info(f"Final file size: ...") *)
| InfoRowsWritten (end_index total_rows : Z)
    (* logger.info(f"Rows written: {end_index} out of {total_rows}") *)
| ErrorWriting (size_limit_mb : Q) (cause : exn).
    (* logger.error(f"An error occurred while writing ... {size_limit_mb}: {e}") *)

(** A failure of a file-system call: the exception the call raises and,
    for a write, how far the call got.  [reached] is [None] when the file
    could not be opened, so that it is left as it was, and [Some n] when it
    was opened (and so created, or emptied, as the mode has it) and [n]
    bytes of the data reached it before the exception.  The calls that
    write nothing have no use for [reached]. *)
Record fault : Type := mkFault {
  cause : exn;
  reached : option nat
}.

(** The world a call runs in.  [files] maps a path to the bytes stored
    there.  [faults] is the schedule of failures of the file system: every
    file-system call consumes its head, and fails as the fault found
    there says, if any; an empty schedule is a file system that never
    fails on its own.  [trace] and [console] grow at their end. *)
Record World : Type := mkWorld {
  files : gmap string (list byte);
  faults : list (option fault);
  trace : list io_event;
  console : list message
}.

Definition set_files (f : gmap string (list byte)) (w : World) : World :=
  mkWorld f (faults w) (trace w) (console w).

Definition next_fault (w : World) : option fault * World :=
  match faults w with
  | [] => (None, w)
  | o :: rest => (o, mkWorld (files w) rest (trace w) (console w))
  end.

Definition record_event (ev : io_event) (w : World) : World :=
  mkWorld (files w) (faults w) (trace w ++ [ev]) (console w).

Definition emit (m : message) (w : World) : World :=
  mkWorld (files w) (faults w) (trace w) (console w ++ [m]).

(** ** A state-and-exception monad *)

(** A call returns a value, raises, or (for the fuel-bounded loops below)
    runs out of fuel. *)
Inductive outcome (A : Type) : Type :=
| Return (a : A)
| Raise (e : exn)
| OutOfFuel.
Arguments Return {A} a.
Arguments Raise {A} e.
Arguments OutOfFuel {A}.

Definition M (A : Type) : Type := World -> outcome A * World.

Definition ret {A} (a : A) : M A := fun w => (Return a, w).

Definition raise {A} (e : exn) : M A := fun w => (Raise e, w).

Definition bind {A B} (m : M A) (k : A -> M B) : M B :=
  fun w =>
    match m w with
    | (Return a, w') => k a w'
    | (Raise e, w') => (Raise e, w')
    | (OutOfFuel, w') => (OutOfFuel, w')
    end.

Notation "x <~ m ;; k" := (bind m (fun x => k))
  (at level 100, m at next level, right associativity).
Notation "m ;;; k" := (bind m (fun _ => k))
  (at level 100, right associativity).

(** [try: body except Exception as e: handler e]. *)
Definition try_except {A} (body : M A) (handler : exn -> M A) : M A :=
  fun w =>
    match body w with
    | (Raise e, w') =>
        if is_Exception e then handler e w' else (Raise e, w')
    | r => r
    end.

(** [print(...)] and [logger.info(...)] / [logger.error(...)]. *)
Definition say (m : message) : M unit := fun w => (Return tt, emit m w).

(** Reading a local variable that may not have been assigned yet. *)
Definition read_local {A} (name : string) (v : option A) : M A :=
  match v with
  | Some a => ret a
  | None => raise (UnboundLocalError name)
  end.

(** ** File-system calls *)

(** Writing [data] to [path] opened in [mode]: opening in ['w'] empties
    the file, opening in ['a'] keeps its content, and both create the file
    when it is missing; the data is then added at the end.  A call that
    fails once the file is open leaves the part of the data that had
    reached it. *)
Definition write_file (path : string) (mode : open_mode) (data : list byte)
  : M unit :=
  fun w =>
    let w := record_event (EvWrite path mode (Z.of_nat (length data))) w in
    let '(failure, w') := next_fault w in
    let old := match mode with
               | ModeW => []
               | ModeA => default [] (files w' !! path)
               end in
    match failure with
    | Some ft =>
        match reached ft with
        | None => (Raise (cause ft), w')
        | Some n =>
            (Raise (cause ft),
             set_files (<[path := old ++ take n data]> (files w')) w')
        end
    | None => (Return tt, set_files (<[path := old ++ data]> (files w')) w')
    end.

(** [os.path.getsize(path)]. *)
Definition getsize (path : string) : M Z :=
  fun w =>
    let w := record_event (EvGetsize path) w in
    match next_fault w with
    | (Some ft, w') => (Raise (cause ft), w')
    | (None, w') =>
        match files w' !! path with
        | Some content => (Return (Z.of_nat (length content)), w')
        | None => (Raise (FileNotFoundError path), w')
        end
    end.

(** [os.makedirs(path, exist_ok=True)].  Paths are a flat name space here,
    so creating the directories changes no file. *)
Definition makedirs (path : string) : M unit :=
  fun w =>
    let w := record_event (EvMakedirs path) w in
    match next_fault w with
    | (Some ft, w') => (Raise (cause ft), w')
    | (None, w') => (Return tt, w')
    end.

(** ** The bounded table exporter *)

(** A table has named columns and an ordered sequence of rows. *)
Record DataFrame (Row : Type) : Type := mkDataFrame {
  columns : list string;
  records : list Row
}.
Arguments mkDataFrame {Row} columns records.
Arguments columns {Row} d.
Arguments records {Row} d.

(** pandas' [to_csv] renders the header line from the column names and
    each row on its own line; how it renders them is left open. *)
Class CsvFormat (Row : Type) : Type := {
  csv_header : list string -> list byte;
  csv_record : Row -> list byte
}.

Section Exporter.

Context {Row : Type} {fmt : CsvFormat Row}.

(** [len(df)] *)
Definition len (df : DataFrame Row) : Z := Z.of_nat (length (records df)).

(** [df.iloc[start:stop]] for [0 <= start]. *)
Definition iloc (df : DataFrame Row) (start stop : Z) : DataFrame Row :=
  mkDataFrame (columns df)
    (take (Z.to_nat (stop - start)) (drop (Z.to_nat start) (records df))).

(** The text [to_csv(..., header=header, index=False)] produces. *)
Definition csv_text (chunk : DataFrame Row) (header : bool) : list byte :=
  (if header then csv_header (columns chunk) else [])
    ++ flat_map csv_record (records chunk).

(** [chunk.to_csv(output_file, mode=mode, header=header, index=False)] *)
Definition to_csv (chunk : DataFrame Row) (output_file : string)
    (mode : open_mode) (header : bool) : M unit :=
  write_file output_file mode (csv_text chunk header).

(** [chunk_size: int = 10000] *)
Definition chunk_size : Z := 10000.

(** [os.path.getsize(output_file) / (1024 * 1024)]: the quotient by a
    power of two is exact in binary floating point for every size below
    2^53, so the rational is the value Python computes. *)
Definition megabytes (size_bytes : Z) : Q := inject_Z size_bytes / 1048576.

(** [current_size_mb >= size_limit_mb], for a finite [size_limit_mb]:
    Python compares an int or a float with a float exactly. *)
Definition limit_reached (size_limit_mb : Q) (size_bytes : Z) : bool :=
  Qle_bool size_limit_mb (megabytes size_bytes).

(** The [while start_index < total_rows] loop.  [end_index] is the
    local variable of that name, unbound until the first iteration; the
    loop returns it as it stands when the loop is left, by the test or
    by [break]. *)
Fixpoint export_loop (fuel : nat) (df : DataFrame Row) (output_file : string)
    (size_limit_mb : Q) (total_rows start_index : Z)
    (end_index : option Z) : M (option Z) :=
  match fuel with
  | O => fun w => (OutOfFuel, w)
  | S fuel' =>
      if start_index <? total_rows then
        let end_index := Z.min (start_index + chunk_size) total_rows in
        let chunk := iloc df start_index end_index in
        let mode := if start_index =? 0 then ModeW else ModeA in
        to_csv chunk output_file mode (start_index =? 0) ;;;
        current_size <~ getsize output_file ;;
        if limit_reached size_limit_mb current_size then
          say (InfoReachedLimit current_size) ;;;
          ret (Some end_index)
        else
          export_loop fuel' df output_file size_limit_mb total_rows
            end_index (Some end_index)
      else ret end_index
  end.

(** The body of the [try] block.  Every iteration of the loop advances
    by at least one row, so one unit of fuel per row, and one more for the
    test that ends the loop, is enough ([export_run], for a file system
    that does not fail, and [export_loop_settled], for any). *)
Definition export_body (df : DataFrame Row) (output_file : string)
    (size_limit_mb : Q) : M unit :=
  let total_rows := len df in
  end_index <~ export_loop (S (length (records df))) df output_file
                 size_limit_mb total_rows 0 None ;;
  final_size <~ getsize output_file ;;
  say (InfoFinalSize final_size) ;;;
  end_index <~ read_local "end_index" end_index ;;
  say (InfoRowsWritten end_index total_rows).

Definition write_csv_with_size_limit (df : DataFrame Row)
    (output_file : string) (size_limit_mb : Q) : M unit :=
  try_except (export_body df output_file size_limit_mb)
    (fun e => say (ErrorWriting size_limit_mb e)).

(** *** Vocabulary of the specification *)

(** The size limit in bytes. *)
Definition limit_bytes (size_limit_mb : Q) : Q := size_limit_mb * 1048576.

(** The serialized table cut after its first [k] rows: the header once,
    then the rows in order. *)
Definition artifact (df : DataFrame Row) (k : Z) : list byte :=
  csv_header (columns df)
    ++ flat_map csv_record (take (Z.to_nat k) (records df)).

Definition artifact_size (df : DataFrame Row) (k : Z) : Z :=
  Z.of_nat (length (artifact df k)).

(** Chunks are numbered from 1; the [i]-th chunk of a table of
    [total_rows] rows ends at this row index (the last one may be short). *)
Definition chunk_end (total_rows i : Z) : Z :=
  Z.min (i * chunk_size) total_rows.

(** The number of chunks a table of [total_rows] rows is cut into. *)
Definition chunk_count (total_rows : Z) : Z :=
  (total_rows + chunk_size - 1) / chunk_size.

(** The bytes of the [i]-th chunk as it is written: with the header for
    the first chunk, without it for the others. *)
Definition chunk_text (df : DataFrame Row) (i : Z) : list byte :=
  csv_text (iloc df ((i - 1) * chunk_size) (chunk_end (len df) i)) (i =? 1).

(** The calls made for the [n] chunks that follow chunk [i]: each chunk is
    written, the first by replacing the file and the others by appending,
    and the file is measured right after. *)
Fixpoint chunk_io (n : nat) (df : DataFrame Row) (output_file : string) (i : Z)
  : list io_event :=
  match n with
  | O => []
  | S n' =>
      EvWrite output_file (if i =? 0 then ModeW else ModeA)
        (Z.of_nat (length (chunk_text df (i + 1))))
      :: EvGetsize output_file
      :: chunk_io n' df output_file (i + 1)
  end.

(** The export stops with chunk [k]: chunk [k] exists, no earlier chunk
    brought the file to the limit, and chunk [k] did unless it is the
    last chunk of the table. *)
Definition stops_with (df : DataFrame Row) (size_limit_mb : Q) (k : Z) : Prop :=
  1 <= k <= chunk_count (len df) /\
  (forall j, 1 <= j < k ->
     limit_reached size_limit_mb (artifact_size df (chunk_end (len df) j))
       = false) /\
  (k < chunk_count (len df) ->
     limit_reached size_limit_mb (artifact_size df (chunk_end (len df) k))
       = true).

(** What a call that stops with chunk [k] leaves behind in world [w]. *)
Definition exported (df : DataFrame Row) (output_file : string)
    (size_limit_mb : Q) (k : Z) (w : World) : World :=
  let rows_written := chunk_end (len df) k in
  let final_size := artifact_size df rows_written in
  mkWorld
    (<[output_file := artifact df rows_written]> (files w))
    []
    (trace w ++ chunk_io (Z.to_nat k) df output_file 0
       ++ [EvGetsize output_file])
    (console w
       ++ (if limit_reached size_limit_mb final_size
           then [InfoReachedLimit final_size] else [])
       ++ [InfoFinalSize final_size;
           InfoRowsWritten rows_written (len df)]).

End Exporter.

(** The rows-written report a finished call left as its last message:
    the rows written and the total. *)
Definition rows_reported (w : World) : option (Z * Z) :=
  match last (console w) with
  | Some (InfoRowsWritten end_index total_rows) => Some (end_index, total_rows)
  | _ => None
  end.

(** The final-size report, which a finished call logs just before the
    rows-written report. *)
Definition final_size_reported (w : World) : option Z :=
  match rev (console w) with
  | InfoRowsWritten _ _ :: InfoFinalSize size_bytes :: _ => Some size_bytes
  | _ => None
  end.

Definition is_write (ev : io_event) : bool :=
  match ev with
  | EvWrite _ _ _ => true
  | _ => false
  end.

(** The number of writes among some calls. *)
Definition chunk_writes (tr : list io_event) : Z :=
  Z.of_nat (length (List.filter is_write tr)).




(** ** Calendar dates *)

(** A [datetime]: a calendar day and the time within it, the latter kept
    as one number of microseconds since midnight. *)
Record datetime : Type := mkDatetime {
  year : Z;
  month : Z;
  day : Z;
  time_of_day : Z
}.

Definition is_leap (y : Z) : bool :=
  (y mod 4 =? 0) && (negb (y mod 100 =? 0) || (y mod 400 =? 0)).

Definition days_in_month (y m : Z) : Z :=
  match m with
  | 2 => if is_leap y then 29 else 28
  | 4 | 6 | 9 | 11 => 30
  | _ => 31
  end.

(** What the [datetime] constructor accepts. *)
Definition valid_datetime (d : datetime) : Prop :=
  1 <= year d <= 9999 /\ 1 <= month d <= 12 /\
  1 <= day d <= days_in_month (year d) (month d) /\
  0 <= time_of_day d < 86400000000.

(** [a <= b] on datetimes: lexicographic on year, month, day, time. *)
Definition datetime_leb (a b : datetime) : bool :=
  if year a <? year b then true
  else if year b <? year a then false
  else if month a <? month b then true
  else if month b <? month a then false
  else if day a <? day b then true
  else if day b <? day a then false
  else time_of_day a <=? time_of_day b.

(** The month after month [m] of year [y]. *)
Definition succ_month (y m : Z) : Z * Z :=
  if m =? 12 then (y + 1, 1) else (y, m + 1).

(** Carrying a day number that exceeds its month into the months after. *)
Fixpoint roll_over (fuel : nat) (y m d : Z) : Z * Z * Z :=
  match fuel with
  | O => (y, m, d)
  | S fuel' =>
      if d <=? days_in_month y m then (y, m, d)
      else
        let '(y', m') := succ_month y m in
        roll_over fuel' y' m' (d - days_in_month y m)
  end.

(** [d + timedelta(days=n)] for [0 <= n]; dates end with year 9999. *)
Definition add_days (d : datetime) (n : Z) : M datetime :=
  let '(y, m, dd) := roll_over (Z.to_nat n) (year d) (month d) (day d + n) in
  if 9999 <? y then raise (OverflowError "date value out of range")
  else ret (mkDatetime y m dd (time_of_day d)).

(** [d.replace(day=n)] for a day every month has. *)
Definition replace_day (d : datetime) (n : Z) : datetime :=
  mkDatetime (year d) (month d) n (time_of_day d).

(** [str.zfill] *)
Definition zfill (width : nat) (s : string) : string :=
  String.concat "" (repeat "0"%string (width - String.length s)) +:+ s.

(** [d.strftime('%Y-%m')], as the C library behind the notebook's kernel
    (Python 3.10 on Linux) renders it: the month on two digits, the year
    in full and not padded, so that a year below 1000 has fewer than four
    digits. *)
Definition strftime_Y_m (d : datetime) : string :=
  pretty (year d) +:+ "-" +:+ zfill 2 (pretty (month d)).

(** [os.path.join(a, b)] on POSIX paths. *)
Definition path_join (a b : string) : string :=
  match b with
  | String "/" _ => b
  | _ =>
      if (a =? "")%string then b
      else match String.get (String.length a - 1) a with
           | Some "/"%char => a +:+ b
           | _ => a +:+ "/" +:+ b
           end
  end.

(** ** The partition fetcher *)

(** What [requests.get] meets: a response, or a failure of the transport
    (no connection, a timeout), which [requests] raises as an exception. *)
Inductive http_reply : Type :=
| Response (status_code : Z) (content : list byte)
| TransportError (e : exn).

Record response : Type := mkResponse {
  status_code : Z;
  content : list byte
}.

Section Fetcher.

(** The remote end, as seen through [requests.get]. *)
Variable remote : string -> http_reply.

Definition requests_get (url : string) : M response :=
  fun w =>
    let w := record_event (EvHttpGet url) w in
    match remote url with
    | Response s c => (Return (mkResponse s c), w)
    | TransportError e => (Raise e, w)
    end.

Definition base_url : string :=
  "https://d37ci6vzurychx.cloudfront.net/trip-data/".

(** [f"{data_type}_tripdata_{current_date.strftime('%Y-%m')}.parquet"] *)
Definition partition_file_name (current_date : datetime)
    (data_type : string) : string :=
  data_type +:+ "_tripdata_" +:+ strftime_Y_m current_date +:+ ".parquet".

(** The body of [for data_type in data_types]. *)
Definition fetch_partition (current_date : datetime) (data_type : string)
  : M unit :=
  let file_name := partition_file_name current_date data_type in
  let url := base_url +:+ file_name in
  say (MsgDownloading file_name) ;;;
  response <~ requests_get url ;;
  if status_code response =? 200 then
    let output_dir :=
      "nyc_taxi_data/" +:+ data_type +:+ "/" +:+ pretty (year current_date) in
    makedirs output_dir ;;;
    write_file (path_join output_dir file_name) ModeW (content response) ;;;
    say (MsgDownloaded file_name)
  else
    say (MsgFailed file_name (status_code response)).

(** [for x in xs: body(x)] *)
Fixpoint for_each {A} (xs : list A) (body : A -> M unit) : M unit :=
  match xs with
  | [] => ret tt
  | x :: rest => body x ;;; for_each rest body
  end.

(** [current_date += timedelta(days=32)] followed by
    [current_date = current_date.replace(day=1)]. *)
Definition advance (current_date : datetime) : M datetime :=
  current_date <~ add_days current_date 32 ;;
  ret (replace_day current_date 1).

(** The [while current_date <= end_date] loop. *)
Fixpoint download_loop (fuel : nat) (current_date end_date : datetime)
    (data_types : list string) : M unit :=
  match fuel with
  | O => fun w => (OutOfFuel, w)
  | S fuel' =>
      if datetime_leb current_date end_date then
        for_each data_types (fetch_partition current_date) ;;;
        current_date <~ advance current_date ;;
        download_loop fuel' current_date end_date data_types
      else ret tt
  end.

(** Months are numbered consecutively across years. *)
Definition month_index (d : datetime) : Z := year d * 12 + (month d - 1).

(** Every iteration moves [current_date] to a later month, so one unit of
    fuel per month from start to end, and one more for the test that ends
    the loop, is enough ([download_loop_answered]). *)
Definition download_nyc_taxi_data (start_date end_date : datetime)
    (data_types : list string) : M unit :=
  download_loop
    (S (Z.to_nat (month_index end_date - month_index start_date + 1)))
    start_date end_date data_types.

(** *** Vocabulary of the specification *)

(** [monthsBetween]: the calendar months from the month of [start_date] to
    the month of [end_date], both included. *)
Definition months_between (start_date end_date : datetime) : Z :=
  month_index end_date - month_index start_date + 1.

(** The date [advance] moves to, when it does not leave the calendar. *)
Definition next_month_start (d : datetime) : datetime :=
  let '(y, m, _) := roll_over 32 (year d) (month d) (day d + 32) in
  mkDatetime y m 1 (time_of_day d).

(** The values [current_date] takes in the body of the loop, in order. *)
Fixpoint months_visited (fuel : nat) (current_date end_date : datetime)
  : list datetime :=
  match fuel with
  | O => []
  | S fuel' =>
      if datetime_leb current_date end_date then
        current_date
          :: months_visited fuel' (next_month_start current_date) end_date
      else []
  end.

Definition visited_months (start_date end_date : datetime) : list datetime :=
  months_visited
    (S (Z.to_nat (month_index end_date - month_index start_date + 1)))
    start_date end_date.

Definition partition_url (d : datetime) (data_type : string) : string :=
  base_url +:+ partition_file_name d data_type.

Definition partition_dir (d : datetime) (data_type : string) : string :=
  "nyc_taxi_data/" +:+ data_type +:+ "/" +:+ pretty (year d).

Definition partition_path (d : datetime) (data_type : string) : string :=
  path_join (partition_dir d data_type) (partition_file_name d data_type).

(** What fetching one partition prints when the remote end answers: the
    announcement, then success for status 200 and the failure with its
    status code otherwise. *)
Definition partition_messages (d : datetime) (data_type : string)
  : list message :=
  let file_name := partition_file_name d data_type in
  MsgDownloading file_name ::
  match remote (partition_url d data_type) with
  | Response s _ =>
      if s =? 200 then [MsgDownloaded file_name] else [MsgFailed file_name s]
  | TransportError _ => []
  end.

(** The calls fetching one partition makes when the remote end answers. *)
Definition partition_events (d : datetime) (data_type : string)
  : list io_event :=
  EvHttpGet (partition_url d data_type) ::
  match remote (partition_url d data_type) with
  | Response s c =>
      if s =? 200 then
        [EvMakedirs (partition_dir d data_type);
         EvWrite (partition_path d data_type) ModeW (Z.of_nat (length c))]
      else []
  | TransportError _ => []
  end.

(** The files after fetching one partition: the content is stored for
    status 200 and nothing changes otherwise. *)
Definition persist (d : datetime) (f : gmap string (list byte))
    (data_type : string) : gmap string (list byte) :=
  match remote (partition_url d data_type) with
  | Response s c =>
      if s =? 200 then <[partition_path d data_type := c]> f else f
  | TransportError _ => f
  end.

(** The remote end answers every request with an HTTP response. *)
Definition answers : Prop :=
  forall url, exists s c, remote url = Response s c.

(** The (month, data type) pairs of some months, in the order of the two
    nested loops. *)
Definition requested_pairs (months : list datetime) (data_types : list string)
  : list (datetime * string) :=
  flat_map (fun d => map (pair d) data_types) months.

(** The exception the retrieval of a partition raises, if it raises. *)
Definition raised_by (p : datetime * string) : option exn :=
  match remote (partition_url p.1 p.2) with
  | TransportError e => Some e
  | Response _ _ => None
  end.

(** The first exception raised along some pairs, if any is. *)
Fixpoint first_error (pairs : list (datetime * string)) : option exn :=
  match pairs with
  | [] => None
  | p :: rest =>
      match raised_by p with
      | Some e => Some e
      | None => first_error rest
      end
  end.

(** The pairs up to and including the first whose retrieval raises. *)
Fixpoint attempted (pairs : list (datetime * string))
  : list (datetime * string) :=
  match pairs with
  | [] => []
  | p :: rest =>
      p :: match raised_by p with
           | Some _ => []
           | None => attempted rest
           end
  end.

Definition pair_messages (p : datetime * string) : list message :=
  partition_messages p.1 p.2.

Definition pair_events (p : datetime * string) : list io_event :=
  partition_events p.1 p.2.

Definition pair_persist (f : gmap string (list byte)) (p : datetime * string)
  : gmap string (list byte) :=
  persist p.1 f p.2.

End Fetcher.

(** How a call ends that raises [o], if anything. *)
Definition outcome_of (o : option exn) : outcome unit :=
  match o with
  | None => Return tt
  | Some e => Raise e
  end.

(** The URLs requested among some calls, in order. *)
Definition requests_made (tr : list io_event) : list string :=
  omap (fun ev => match ev with
                  | EvHttpGet url => Some url
                  | _ => None
                  end) tr.

(** The failures printed on a console. *)
Definition failures_recorded (c : list message) : list (string * Z) :=
  omap (fun m => match m with
                 | MsgFailed file_name s => Some (file_name, s)
                 | _ => None
                 end) c.

(** ** Example data *)

Definition newline : string := String (ascii_of_nat 10) EmptyString.

(** A plain CSV rendering: cells joined by commas, one line each. *)
Definition csv_line (cells : list string) : list byte :=
  list_byte_of_string (String.concat "," cells +:+ newline).

#[export] Instance plain_csv : CsvFormat (list string) := {
  csv_header := csv_line;
  csv_record := csv_line
}.

Definition trip_columns : list string :=
  ["VendorID"; "trip_distance"; "fare_amount"]%string.

Definition trip : list string := ["1"; "2.50"; "14.20"]%string.

(** A table of [n] trips. *)
Definition trips (n : Z) : DataFrame (list string) :=
  mkDataFrame trip_columns (repeat trip (Z.to_nat n)).

(** No file, no scheduled failure, nothing done or said yet. *)
Definition fresh_world : World := mkWorld ∅ [] [] [].

(** A world whose disk fails at the second file-system call, the first
    size measurement of an export. *)
Definition failing_world : World :=
  mkWorld ∅ [None; Some (mkFault (OSError "Input/output error") None)] [] [].


Definition green_2024_01 : string :=
  "https://d37ci6vzurychx.cloudfront.net/trip-data/green_tripdata_2024-01.parquet".

(** Every partition is there. *)
Definition remote_ok (url : string) : http_reply := Response 200 [x50; x41; x52].

(** The green partition of January 2024 answers HTTP 500. *)
Definition remote_500 (url : string) : http_reply :=
  if (url =? green_2024_01)%string then Response 500 []
  else Response 200 [x50; x41; x52].

(** The green partition of January 2024 cannot be reached. *)
Definition remote_down (url : string) : http_reply :=
  if (url =? green_2024_01)%string then TransportError (ConnectionError url)
  else Response 200 [x50; x41; x52].

Definition three_types : list string := ["yellow"; "green"; "fhv"]%string.

(** ** Vocabulary for further properties *)

(** The whole table serialized: the header, then every row. *)
Definition full_csv {Row : Type} {fmt : CsvFormat Row} (df : DataFrame Row)
  : list byte :=
  csv_header (columns df) ++ flat_map csv_record (records df).

(** The sizes of the writes among some calls, in order, their sum, and
    the modes the files were opened in. *)
Definition write_sizes (tr : list io_event) : list Z :=
  omap (fun ev => match ev with
                  | EvWrite _ _ nbytes => Some nbytes
                  | _ => None
                  end) tr.



(** No row of the table serializes to more than [bound] bytes. *)
Definition rows_within {Row : Type} {fmt : CsvFormat Row} (bound : Z)
    (df : DataFrame Row) : Prop :=
  Forall (fun row => Z.of_nat (length (csv_record row)) <= bound) (records df).

(** What the retrieval of a partition stores, and where, if anything. *)
Definition pair_write (remote : string -> http_reply) (p : datetime * string)
  : option (string * list byte) :=
  match remote (partition_url p.1 p.2) with
  | Response s c => if s =? 200 then Some (partition_path p.1 p.2, c) else None
  | TransportError _ => None
  end.

(** The content stored last at [path] along some pairs, if any was. *)
Definition last_stored (remote : string -> http_reply)
    (pairs : list (datetime * string)) (path : string)
  : option (list byte) :=
  foldl (fun acc p =>
           match pair_write remote p with
           | Some (k, v) => if decide (k = path) then Some v else acc
           | None => acc
           end) None pairs.

(** Dates that are the first days of months following one another. *)
Fixpoint month_chain (l : list datetime) : Prop :=
  match l with
  | [] => True
  | a :: rest =>
      day a = 1 /\
      match rest with
      | [] => True
      | b :: _ => month_index b = month_index a + 1
      end /\
      month_chain rest
  end.

(** The two decimal digits of a number below 100. *)
Definition two_digits (n : N) : string :=
  String (pretty_N_char (n / 10)) (String (pretty_N_char (n mod 10)) "").

(** [c in s], for a character [c]. *)
Fixpoint has_char (c : ascii) (s : string) : bool :=
  match s with
  | EmptyString => false
  | String x rest => Ascii.eqb x c || has_char c rest
  end.

(** [c.isdigit()] on ASCII, and [s.isdigit()] or [s] empty. *)
Definition digit (c : ascii) : bool :=
  (48 <=? Z.of_nat (nat_of_ascii c)) && (Z.of_nat (nat_of_ascii c) <=? 57).

Fixpoint all_digits (s : string) : bool :=
  match s with
  | EmptyString => true
  | String x rest => digit x && all_digits rest
  end.

(** [s] does not begin with a slash. *)
Definition relative (s : string) : Prop :=
  match s with
  | String "/" _ => False
  | _ => True
  end.

(** A world that holds an earlier export and whose first file-system
    call is interrupted from the keyboard once the file is open and 20
    bytes have reached it. *)
Definition interrupted_world : World :=
  mkWorld {[ "nyc_taxi_subset.csv"%string := [x6f; x6c; x64] ]}
    [Some (mkFault KeyboardInterrupt (Some 20%nat))] [] [].

(** * Properties *)

(** ** File-system calls on a file system that does not fail *)

Lemma write_file_ok (path : string) (mode : open_mode) (data : list byte)
    (f : gmap string (list byte)) (tr : list io_event) (c : list message) :
  write_file path mode data (mkWorld f [] tr c)
  = (Return tt,
     mkWorld
       (<[path := match mode with
                  | ModeW => []
                  | ModeA => default [] (f !! path)
                  end ++ data]> f)
       [] (tr ++ [EvWrite path mode (Z.of_nat (length data))]) c).
Proof. reflexivity. Qed.

Lemma getsize_ok (path : string) (bytes : list byte)
    (f : gmap string (list byte)) (tr : list io_event) (c : list message) :
  f !! path = Some bytes ->
  getsize path (mkWorld f [] tr c)
  = (Return (Z.of_nat (length bytes)), mkWorld f [] (tr ++ [EvGetsize path]) c).
Proof. intros H. unfold getsize. simpl. rewrite H. reflexivity. Qed.

Lemma getsize_missing (path : string)
    (f : gmap string (list byte)) (tr : list io_event) (c : list message) :
  f !! path = None ->
  getsize path (mkWorld f [] tr c)
  = (Raise (FileNotFoundError path), mkWorld f [] (tr ++ [EvGetsize path]) c).
Proof. intros H. unfold getsize. simpl. rewrite H. reflexivity. Qed.

(** ** File-system calls under scheduled I/O failures *)







(** ** Chunks and the size limit *)

Lemma chunk_size_eq : chunk_size = 10000.
Proof. reflexivity. Qed.

(** Chunk [k] exists exactly when the chunks before it leave rows over. *)
Lemma chunk_count_ge (total k : Z) :
  k <= chunk_count total <-> (k - 1) * chunk_size < total.
Proof.
  unfold chunk_count. rewrite chunk_size_eq.
  pose proof (Z.div_mod (total + 10000 - 1) 10000 ltac:(lia)) as Hdm.
  pose proof (Z.mod_pos_bound (total + 10000 - 1) 10000 ltac:(lia)) as Hb.
  lia.
Qed.

(** The last chunk ends with the table. *)
Lemma chunk_end_last (total : Z) :
  0 < total -> chunk_end total (chunk_count total) = total.
Proof.
  intros Hpos. unfold chunk_end.
  destruct (Z_lt_le_dec (chunk_count total * chunk_size) total) as [Hlt | Hle];
    [| lia].
  assert (chunk_count total + 1 <= chunk_count total) as Habs
    by (apply chunk_count_ge; lia).
  lia.
Qed.

(** The comparison of the source, in megabytes, is a comparison of the
    size in bytes with the limit in bytes. *)
Lemma limit_reached_true (limit : Q) (size : Z) :
  limit_reached limit size = true <-> (limit_bytes limit <= inject_Z size)%Q.
Proof.
  unfold limit_reached, megabytes, limit_bytes. rewrite Qle_bool_iff.
  split; intros H.
  - apply (Qmult_le_compat_r _ _ 1048576) in H; [| lra].
    field_simplify in H. lra.
  - apply Qle_shift_div_l; lra.
Qed.

Lemma limit_reached_false (limit : Q) (size : Z) :
  limit_reached limit size = false <-> (inject_Z size < limit_bytes limit)%Q.
Proof.
  pose proof (limit_reached_true limit size) as Ht.
  destruct (limit_reached limit size); split; intros H.
  - discriminate.
  - apply Qlt_not_le in H. destruct H. apply Ht. reflexivity.
  - apply Qnot_le_lt. intros Hle. apply Ht in Hle. discriminate.
  - reflexivity.
Qed.

Lemma chunk_writes_chunk_io {Row : Type} {fmt : CsvFormat Row}
    (df : DataFrame Row) (path : string) :
  forall (n : nat) (i : Z), chunk_writes (chunk_io n df path i) = Z.of_nat n.
Proof.
  unfold chunk_writes. induction n as [| n IH]; intros i; [reflexivity |].
  cbn [chunk_io List.filter is_write length]. rewrite !Nat2Z.inj_succ, IH.
  reflexivity.
Qed.

Lemma chunk_writes_app (a b : list io_event) :
  chunk_writes (a ++ b) = chunk_writes a + chunk_writes b.
Proof. unfold chunk_writes. rewrite List.filter_app, length_app. lia. Qed.

(** ** The exporter on a file system that does not fail *)

Section ExporterFacts.

Context {Row : Type} {fmt : CsvFormat Row}.

(** The first chunk, written with the header, is the artifact so far. *)
Lemma artifact_first_chunk (df : DataFrame Row) :
  chunk_text df 1 = artifact df (chunk_end (len df) 1).
Proof.
  unfold chunk_text, artifact, csv_text, iloc. simpl.
  rewrite Z.sub_0_r. reflexivity.
Qed.

(** Appending a later chunk, written without the header, extends the
    artifact by the rows of that chunk. *)
Lemma artifact_next_chunk (df : DataFrame Row) (i : Z) :
  1 <= i -> i * chunk_size < len df ->
  artifact df (i * chunk_size) ++ chunk_text df (i + 1)
  = artifact df (chunk_end (len df) (i + 1)).
Proof.
  intros Hi Hlt. unfold chunk_text, artifact, csv_text, iloc.
  replace (i + 1 =? 1) with false by (symmetry; apply Z.eqb_neq; lia).
  simpl. rewrite <- app_assoc. f_equal.
  rewrite <- flat_map_app. f_equal.
  replace (i + 1 - 1) with i by lia.
  assert (i * chunk_size <= chunk_end (len df) (i + 1)) as Hle
    by (unfold chunk_end; rewrite chunk_size_eq in *; lia).
  rewrite take_take_drop. f_equal. rewrite chunk_size_eq in *. lia.
Qed.

(** Serialization only appends: more rows never make a smaller artifact. *)
Lemma artifact_size_mono (df : DataFrame Row) (a b : Z) :
  a <= b -> artifact_size df a <= artifact_size df b.
Proof.
  intros Hab. unfold artifact_size, artifact.
  rewrite !length_app.
  assert (length (flat_map csv_record (take (Z.to_nat a) (records df)))
          <= length (flat_map csv_record (take (Z.to_nat b) (records df))))%nat;
    [| lia].
  replace (Z.to_nat b) with (Z.to_nat a + (Z.to_nat b - Z.to_nat a))%nat by lia.
  rewrite <- take_take_drop, flat_map_app, length_app. lia.
Qed.

Lemma artifact_size_step (df : DataFrame Row) (k : Z) :
  1 < k -> k <= chunk_count (len df) ->
  artifact_size df (chunk_end (len df) k)
  = artifact_size df (chunk_end (len df) (k - 1))
    + Z.of_nat (length (chunk_text df k)).
Proof.
  intros Hk Hc. apply chunk_count_ge in Hc.
  assert (chunk_end (len df) (k - 1) = (k - 1) * chunk_size) as ->
    by (unfold chunk_end; lia).
  pose proof (artifact_next_chunk df (k - 1) ltac:(lia) ltac:(lia)) as Hnext.
  replace (k - 1 + 1) with k in Hnext by lia.
  unfold artifact_size. rewrite <- Hnext, length_app. lia.
Qed.

(** The loop, entered with [i] chunks written and none of them at the
    limit, stops with some later chunk [k] and leaves the artifact cut
    after chunk [k]. *)
Lemma export_loop_spec (df : DataFrame Row) (path : string) (limit : Q) :
  forall (fuel : nat) (i : Z) (f : gmap string (list byte))
         (tr : list io_event) (c : list message) (old_end : option Z),
    0 <= i -> i * chunk_size < len df ->
    len df - i * chunk_size < Z.of_nat fuel ->
    (1 <= i -> f !! path = Some (artifact df (i * chunk_size))) ->
    (forall j, 1 <= j <= i ->
       limit_reached limit (artifact_size df (chunk_end (len df) j)) = false) ->
    exists k,
      i < k /\ stops_with df limit k /\
      export_loop fuel df path limit (len df) (i * chunk_size) old_end
        (mkWorld f [] tr c)
      = (Return (Some (chunk_end (len df) k)),
         mkWorld (<[path := artifact df (chunk_end (len df) k)]> f) []
           (tr ++ chunk_io (Z.to_nat (k - i)) df path i)
           (c ++ if limit_reached limit
                      (artifact_size df (chunk_end (len df) k))
                 then [InfoReachedLimit
                         (artifact_size df (chunk_end (len df) k))]
                 else [])).
Proof.
  induction fuel as [| fuel IH];
    intros i f tr c old_end Hi Hlt Hfuel Hfile Hbelow.
  { simpl in Hfuel. lia. }
  pose proof chunk_size_eq as Hcs.
  assert (Hend : Z.min (i * chunk_size + chunk_size) (len df)
                 = chunk_end (len df) (i + 1)).
  { unfold chunk_end. f_equal. lia. }
  assert (Hmode : (i * chunk_size =? 0) = (i =? 0)).
  { destruct (Z.eqb_spec i 0) as [-> | Hne]; [reflexivity |].
    apply Z.eqb_neq. lia. }
  assert (Htext : csv_text
                    (iloc df (i * chunk_size) (chunk_end (len df) (i + 1)))
                    (i =? 0)
                  = chunk_text df (i + 1)).
  { unfold chunk_text. replace (i + 1 - 1) with i by lia.
    f_equal. destruct (Z.eqb_spec i 0), (Z.eqb_spec (i + 1) 1);
      (reflexivity || lia). }
  assert (Hnew : (match (if i =? 0 then ModeW else ModeA) with
                  | ModeW => []
                  | ModeA => default [] (f !! path)
                  end) ++ chunk_text df (i + 1)
                 = artifact df (chunk_end (len df) (i + 1))).
  { destruct (Z.eqb_spec i 0) as [-> | Hne].
    - simpl. apply artifact_first_chunk.
    - rewrite Hfile by lia. simpl. apply artifact_next_chunk; lia. }
  cbn [export_loop].
  replace (i * chunk_size <? len df) with true
    by (symmetry; apply Z.ltb_lt; lia).
  rewrite Hend, Hmode.
  unfold to_csv, bind at 1. rewrite Htext, write_file_ok, Hnew.
  unfold bind at 1.
  rewrite (getsize_ok path (artifact df (chunk_end (len df) (i + 1))))
    by apply lookup_insert_eq.
  fold (artifact_size df (chunk_end (len df) (i + 1))).
  destruct (limit_reached limit (artifact_size df (chunk_end (len df) (i + 1))))
    eqn:Hreach.
  - (* the limit is reached: break *)
    exists (i + 1). split; [lia |]. split.
    + split; [| split].
      * split; [lia |]. apply chunk_count_ge.
        replace (i + 1 - 1) with i by lia. lia.
      * intros j Hj. apply Hbelow. lia.
      * intros _. exact Hreach.
    + unfold bind, say, ret, emit. simpl. rewrite Hreach.
      replace (Z.to_nat (i + 1 - i)) with 1%nat by lia. simpl.
      rewrite <- app_assoc. reflexivity.
  - destruct (Z_lt_le_dec ((i + 1) * chunk_size) (len df)) as [Hmore | Hlast].
    + (* rows remain: the next iteration *)
      assert (Hce : chunk_end (len df) (i + 1) = (i + 1) * chunk_size)
        by (unfold chunk_end; lia).
      rewrite Hce in *.
      destruct (IH (i + 1)
                  (<[path := artifact df ((i + 1) * chunk_size)]> f)
                  ((tr ++ [EvWrite path (if i =? 0 then ModeW else ModeA)
                             (Z.of_nat (length (chunk_text df (i + 1))))])
                     ++ [EvGetsize path])
                  c (Some ((i + 1) * chunk_size)))
        as (k & Hk & Hstop & Hrun).
      * lia.
      * exact Hmore.
      * rewrite Hcs in *. lia.
      * intros _. apply lookup_insert_eq.
      * intros j Hj. destruct (Z.eq_dec j (i + 1)) as [-> | Hne].
        -- unfold chunk_end. rewrite Z.min_l by lia. exact Hreach.
        -- apply Hbelow. lia.
      * exists k. split; [lia |]. split; [exact Hstop |].
        rewrite Hrun. rewrite insert_insert_eq. f_equal. f_equal.
        replace (Z.to_nat (k - i)) with (S (Z.to_nat (k - (i + 1)))) by lia.
        simpl. rewrite <- !app_assoc. reflexivity.
    + (* that was the last chunk: the loop test fails *)
      assert (Hce : chunk_end (len df) (i + 1) = len df)
        by (unfold chunk_end; lia).
      destruct fuel as [| fuel]; [simpl in Hfuel; lia |].
      cbn [export_loop]. rewrite Hce in *. rewrite Z.ltb_irrefl.
      exists (i + 1). split; [lia |]. split.
      * split; [| split].
        -- split; [lia |]. apply chunk_count_ge.
           replace (i + 1 - 1) with i by lia. lia.
        -- intros j Hj. apply Hbelow. lia.
        -- intros Hk. exfalso.
           assert (i + 1 + 1 <= chunk_count (len df)) as Hc by lia.
           apply chunk_count_ge in Hc. lia.
      * unfold ret. rewrite Hce, Hreach, app_nil_r.
        replace (Z.to_nat (i + 1 - i)) with 1%nat by lia. simpl.
        rewrite <- app_assoc. reflexivity.
Qed.

(** A call on a table with rows, with no failure of the file system, stops
    with some chunk and leaves the world [exported] describes. *)
Lemma export_run (df : DataFrame Row) (path : string) (limit : Q) (w : World) :
  faults w = [] -> 0 < len df ->
  exists k,
    stops_with df limit k /\
    write_csv_with_size_limit df path limit w
    = (Return tt, exported df path limit k w).
Proof.
  destruct w as [f fl tr c]. simpl. intros -> Hlen.
  destruct (export_loop_spec df path limit (S (length (records df))) 0
              f tr c None)
    as (k & Hk & Hstop & Hrun).
  - lia.
  - lia.
  - unfold len. lia.
  - lia.
  - intros j Hj. lia.
  - exists k. split; [exact Hstop |].
    change (0 * chunk_size) with 0 in Hrun. rewrite Z.sub_0_r in Hrun.
    unfold write_csv_with_size_limit, try_except, export_body.
    unfold bind at 1. rewrite Hrun.
    unfold bind at 1.
    rewrite (getsize_ok path (artifact df (chunk_end (len df) k)))
      by apply lookup_insert_eq.
    unfold bind, say, ret, emit, read_local, exported. simpl.
    rewrite <- !app_assoc. reflexivity.
Qed.

(** The stopping chunk is determined by the table and the limit. *)
Lemma stops_with_unique (df : DataFrame Row) (limit : Q) (k k' : Z) :
  stops_with df limit k -> stops_with df limit k' -> k = k'.
Proof.
  intros (Hk & Hbelow & Hat) (Hk' & Hbelow' & Hat').
  destruct (Z.lt_trichotomy k k') as [Hlt | [Heq | Hgt]]; [| exact Heq |].
  - rewrite Hbelow' in Hat by lia.
    assert (true = false) by (symmetry; apply Hat; lia). discriminate.
  - rewrite Hbelow in Hat' by lia.
    assert (true = false) by (symmetry; apply Hat'; lia). discriminate.
Qed.

(** A call on an empty table never enters the loop. *)
Lemma export_empty (df : DataFrame Row) (path : string) (limit : Q)
    (f : gmap string (list byte)) (tr : list io_event) (c : list message) :
  len df = 0 ->
  write_csv_with_size_limit df path limit (mkWorld f [] tr c)
  = (Return tt,
     mkWorld f [] (tr ++ [EvGetsize path])
       (c ++ match f !! path with
             | None => [ErrorWriting limit (FileNotFoundError path)]
             | Some bytes =>
                 [InfoFinalSize (Z.of_nat (length bytes));
                  ErrorWriting limit (UnboundLocalError "end_index")]
             end)).
Proof.
  intros Hlen.
  unfold write_csv_with_size_limit, try_except, export_body.
  cbn [export_loop]. rewrite Hlen.
  change (0 <? 0) with false. cbv iota.
  unfold bind at 1, ret at 1. unfold bind at 1.
  destruct (f !! path) as [bytes |] eqn:Hf.
  - rewrite (getsize_ok path bytes) by exact Hf.
    unfold bind, say, read_local, raise, emit. simpl.
    rewrite <- app_assoc. reflexivity.
  - rewrite getsize_missing by exact Hf. reflexivity.
Qed.

Lemma rows_reported_exported (df : DataFrame Row) (path : string) (limit : Q)
    (k : Z) (w : World) :
  rows_reported (exported df path limit k w)
  = Some (chunk_end (len df) k, len df).
Proof.
  unfold rows_reported, exported. cbn [console].
  rewrite !app_assoc.
  change [InfoFinalSize ?a; ?b] with ([InfoFinalSize a] ++ [b]).
  rewrite app_assoc, last_snoc. reflexivity.
Qed.

End ExporterFacts.

(** ** Claims about the exporter on a file system that does not fail *)

Section ExporterClaims.

Context {Row : Type} {fmt : CsvFormat Row}.

Lemma final_size_reported_exported (df : DataFrame Row) (path : string)
    (limit : Q) (k : Z) (w : World) :
  final_size_reported (exported df path limit k w)
  = Some (artifact_size df (chunk_end (len df) k)).
Proof.
  unfold final_size_reported, exported. cbn [console].
  rewrite !rev_app_distr. reflexivity.
Qed.

Lemma chunk_writes_exported (df : DataFrame Row) (path : string)
    (limit : Q) (k : Z) (w : World) :
  0 <= k ->
  chunk_writes (trace (exported df path limit k w))
  = chunk_writes (trace w) + k.
Proof.
  intros Hk. unfold exported. cbn [trace].
  rewrite !chunk_writes_app, chunk_writes_chunk_io.
  change (chunk_writes [EvGetsize path]) with 0. lia.
Qed.

(** C1.  With no failure of the file system, the export writes the
    chunks in order, each write followed by a measure of the file, and
    stops with the first chunk [k] after which the measured size is at
    least the limit: every earlier chunk left the file below the limit,
    and a chunk that brought it to the limit is the last one written.
    That chunk is written in full.  If the first chunk already brings the
    file to the limit, it is the only chunk written, and for a table of
    at least [chunk_size] rows the rows reported are [chunk_size], not
    zero.  When more than one chunk was written, the file exceeds the
    limit by less than the bytes of the last chunk.  (On a table without
    rows there is no chunk, and nothing is written.) *)
Theorem export_stops_after_crossing_chunk (df : DataFrame Row)
    (path : string) (limit : Q) (w : World) :
  faults w = [] ->
  exists w',
    write_csv_with_size_limit df path limit w = (Return tt, w') /\
    (len df = 0 ->
     files w' = files w /\ trace w' = trace w ++ [EvGetsize path]) /\
    (0 < len df ->
     exists k,
       w' = exported df path limit k w /\
       1 <= k <= chunk_count (len df) /\
       trace w'
       = trace w ++ chunk_io (Z.to_nat k) df path 0 ++ [EvGetsize path] /\
       files w' !! path = Some (artifact df (chunk_end (len df) k)) /\
       rows_reported w' = Some (chunk_end (len df) k, len df) /\
       (forall j, 1 <= j < k ->
          (inject_Z (artifact_size df (chunk_end (len df) j))
           < limit_bytes limit)%Q) /\
       (forall j, 1 <= j <= k ->
          (limit_bytes limit
           <= inject_Z (artifact_size df (chunk_end (len df) j)))%Q ->
          j = k) /\
       (k < chunk_count (len df) ->
          (limit_bytes limit
           <= inject_Z (artifact_size df (chunk_end (len df) k)))%Q) /\
       ((limit_bytes limit
         <= inject_Z (artifact_size df (chunk_end (len df) 1)))%Q ->
        k = 1 /\
        (chunk_size <= len df ->
         rows_reported w' = Some (chunk_size, len df))) /\
       (1 < k ->
        (inject_Z (artifact_size df (chunk_end (len df) k))
         < limit_bytes limit
           + inject_Z (Z.of_nat (length (chunk_text df k))))%Q)).
Proof.
  intros Hf.
  destruct (Z_lt_le_dec 0 (len df)) as [Hlen | Hzero].
  - destruct (export_run df path limit w Hf Hlen)
      as (k & (Hk & Hbelow & Hat) & Hrun).
    exists (exported df path limit k w).
    split; [exact Hrun |]. split; [lia |]. intros _. exists k.
    assert (Hstop : forall j, 1 <= j <= k ->
              (limit_bytes limit
               <= inject_Z (artifact_size df (chunk_end (len df) j)))%Q ->
              j = k).
    { intros j Hj H1. apply limit_reached_true in H1.
      destruct (Z.eq_dec j k) as [| Hne]; [assumption |].
      rewrite Hbelow in H1 by lia. discriminate. }
    split; [reflexivity |]. split; [exact Hk |].
    split; [reflexivity |].
    split; [unfold exported; cbn [files]; apply lookup_insert_eq |].
    split; [apply rows_reported_exported |].
    split; [intros j Hj; apply limit_reached_false, Hbelow, Hj |].
    split; [exact Hstop |].
    split; [intros Hlt; apply limit_reached_true, Hat, Hlt |].
    split.
    + intros H1.
      assert (k = 1) as Hk1 by (symmetry; apply Hstop; [lia | exact H1]).
      split; [exact Hk1 |]. intros Hbig.
      rewrite rows_reported_exported, Hk1.
      unfold chunk_end. rewrite Z.min_l by lia. reflexivity.
    + intros Hgt.
      rewrite artifact_size_step, inject_Z_plus by lia.
      assert (inject_Z (artifact_size df (chunk_end (len df) (k - 1)))
              < limit_bytes limit)%Q
        by (apply limit_reached_false, Hbelow; lia).
      lra.
  - assert (len df = 0) as Hlen by (unfold len in *; lia).
    destruct w as [f fl tr c]. simpl in Hf. subst fl.
    eexists. split; [apply export_empty, Hlen |].
    split; [| lia]. intros _. split; reflexivity.
Qed.

(** C2.  On a table with rows, with no failure of the file system and a
    limit above the size of the whole serialized table, the export writes
    every chunk, the last one ending with the table, leaves the whole
    table serialized in the file and reports all rows written. *)
Theorem export_full_below_limit (df : DataFrame Row) (path : string)
    (limit : Q) (w : World) :
  faults w = [] -> 0 < len df ->
  (inject_Z (artifact_size df (len df)) < limit_bytes limit)%Q ->
  exists w',
    write_csv_with_size_limit df path limit w = (Return tt, w') /\
    w' = exported df path limit (chunk_count (len df)) w /\
    chunk_end (len df) (chunk_count (len df)) = len df /\
    chunk_writes (trace w') = chunk_writes (trace w) + chunk_count (len df) /\
    files w' !! path
      = Some (csv_header (columns df) ++ flat_map csv_record (records df)) /\
    rows_reported w' = Some (len df, len df) /\
    console w' = console w ++ [InfoFinalSize (artifact_size df (len df));
                               InfoRowsWritten (len df) (len df)].
Proof.
  intros Hf Hlen Hlimit.
  destruct (export_run df path limit w Hf Hlen)
    as (k & (Hk & Hbelow & Hat) & Hrun).
  assert (Hnever : forall j,
            limit_reached limit (artifact_size df (chunk_end (len df) j))
            = false).
  { intros j. apply limit_reached_false.
    eapply Qle_lt_trans; [| exact Hlimit].
    rewrite <- Zle_Qle. apply artifact_size_mono. unfold chunk_end. lia. }
  assert (k = chunk_count (len df)) as ->.
  { destruct (Z_lt_le_dec k (chunk_count (len df))) as [Hlt | Hge]; [| lia].
    rewrite Hnever in Hat. specialize (Hat Hlt). discriminate. }
  pose proof (chunk_end_last (len df) Hlen) as Hlast.
  exists (exported df path limit (chunk_count (len df)) w).
  split; [exact Hrun |]. split; [reflexivity |]. split; [exact Hlast |].
  split; [apply chunk_writes_exported; lia |].
  split; [| split].
  - unfold exported; cbn [files]. rewrite lookup_insert_eq, Hlast.
    unfold artifact, len. rewrite Nat2Z.id, firstn_all. reflexivity.
  - rewrite rows_reported_exported, Hlast. reflexivity.
  - unfold exported; cbn [console]. rewrite Hlast.
    specialize (Hnever (chunk_count (len df))). rewrite Hlast in Hnever.
    rewrite Hnever. reflexivity.
Qed.

(** C6.  On a table with rows, with no failure of the file system, the
    rows reported as written are the end index of the last chunk written
    (the file holds exactly the header and that many rows), at most the
    total, and a multiple of [chunk_size] unless the last chunk written is
    the last, possibly shorter, chunk of the table. *)
Theorem rows_written_is_last_chunk_end (df : DataFrame Row) (path : string)
    (limit : Q) (w : World) :
  faults w = [] -> 0 < len df ->
  exists k w',
    write_csv_with_size_limit df path limit w = (Return tt, w') /\
    1 <= k <= chunk_count (len df) /\
    chunk_writes (trace w') = chunk_writes (trace w) + k /\
    files w' !! path = Some (artifact df (chunk_end (len df) k)) /\
    rows_reported w' = Some (chunk_end (len df) k, len df) /\
    0 < chunk_end (len df) k <= len df /\
    (chunk_end (len df) k = k * chunk_size \/
     k = chunk_count (len df) /\ chunk_end (len df) k = len df) /\
    ((chunk_end (len df) k) mod chunk_size = 0 \/
     chunk_end (len df) k = len df).
Proof.
  intros Hf Hlen.
  destruct (export_run df path limit w Hf Hlen)
    as (k & (Hk & Hbelow & Hat) & Hrun).
  exists k, (exported df path limit k w).
  pose proof chunk_size_eq as Hcs.
  assert (Hshape : chunk_end (len df) k = k * chunk_size \/
                   k = chunk_count (len df) /\ chunk_end (len df) k = len df).
  { destruct (Z_lt_le_dec k (chunk_count (len df))) as [Hlt | Hge].
    - left. assert (k + 1 <= chunk_count (len df)) as Hc by lia.
      apply chunk_count_ge in Hc. unfold chunk_end. lia.
    - right. assert (k = chunk_count (len df)) as -> by lia.
      split; [reflexivity | apply chunk_end_last, Hlen]. }
  split; [exact Hrun |]. split; [exact Hk |].
  split; [apply chunk_writes_exported; lia |].
  split; [unfold exported; cbn [files]; apply lookup_insert_eq |].
  split; [apply rows_reported_exported |].
  split; [unfold chunk_end; lia |].
  split; [exact Hshape |].
  destruct Hshape as [-> | [_ ->]]; [left | right; reflexivity].
  apply Z.mod_mul. lia.
Qed.

(** C7.  On a table with rows, with no failure of the file system: when
    the export stops early (fewer rows reported than the total), the final
    size reported is at least the limit; a final size below the limit is
    reported only when all rows were written; and the number of chunks
    written is the number of chunks up to and including the first one
    whose write brought the file to the limit. *)
Theorem early_stop_reaches_limit (df : DataFrame Row) (path : string)
    (limit : Q) (w : World) :
  faults w = [] -> 0 < len df ->
  exists k w',
    write_csv_with_size_limit df path limit w = (Return tt, w') /\
    rows_reported w' = Some (chunk_end (len df) k, len df) /\
    final_size_reported w'
      = Some (artifact_size df (chunk_end (len df) k)) /\
    (chunk_end (len df) k < len df ->
     (limit_bytes limit
      <= inject_Z (artifact_size df (chunk_end (len df) k)))%Q) /\
    ((inject_Z (artifact_size df (chunk_end (len df) k))
      < limit_bytes limit)%Q ->
     chunk_end (len df) k = len df) /\
    1 <= k <= chunk_count (len df) /\
    chunk_writes (trace w') = chunk_writes (trace w) + k /\
    (forall j, 1 <= j < k ->
       (inject_Z (artifact_size df (chunk_end (len df) j))
        < limit_bytes limit)%Q) /\
    (k < chunk_count (len df) ->
     (limit_bytes limit
      <= inject_Z (artifact_size df (chunk_end (len df) k)))%Q).
Proof.
  intros Hf Hlen.
  destruct (export_run df path limit w Hf Hlen)
    as (k & (Hk & Hbelow & Hat) & Hrun).
  exists k, (exported df path limit k w).
  assert (Hearly : chunk_end (len df) k < len df ->
                   k < chunk_count (len df)).
  { intros Hlt. destruct (Z_lt_le_dec k (chunk_count (len df))) as [| Hge];
      [assumption |].
    assert (k = chunk_count (len df)) as Heq by lia.
    rewrite Heq, chunk_end_last in Hlt by exact Hlen. lia. }
  split; [exact Hrun |].
  split; [apply rows_reported_exported |].
  split; [apply final_size_reported_exported |].
  split; [intros Hlt; apply limit_reached_true, Hat, Hearly, Hlt |].
  split.
  - intros Hsmall.
    destruct (Z_lt_le_dec (chunk_end (len df) k) (len df)) as [Hlt | Hge];
      [| unfold chunk_end in *; lia].
    apply Hearly, Hat, limit_reached_true in Hlt.
    apply Qlt_not_le in Hsmall. contradiction.
  - split; [exact Hk |].
    split; [apply chunk_writes_exported; lia |].
    split; [intros j Hj; apply limit_reached_false, Hbelow, Hj |].
    intros Hlt. apply limit_reached_true, Hat, Hlt.
Qed.

(** C8.  The export is a function of its inputs: two calls with the same
    table and limit, each on a file system that does not fail and holds
    no file yet at its output path, end the same way and leave the same
    bytes at their output paths.  For a table with rows both stop with
    the same chunk, the first chunk being written with the header by
    replacing the file and the later ones without it by appending, and
    the bytes are the header once, followed by the rows of the chunks
    written, in order; for an empty table neither call creates a file. *)
Theorem export_deterministic_on_fresh_sinks (df : DataFrame Row)
    (limit : Q) (path1 path2 : string) (w1 w2 : World) :
  faults w1 = [] -> faults w2 = [] ->
  files w1 !! path1 = None -> files w2 !! path2 = None ->
  exists w1' w2',
    write_csv_with_size_limit df path1 limit w1 = (Return tt, w1') /\
    write_csv_with_size_limit df path2 limit w2 = (Return tt, w2') /\
    files w1' !! path1 = files w2' !! path2 /\
    (0 < len df ->
     exists k,
       1 <= k <= chunk_count (len df) /\
       w1' = exported df path1 limit k w1 /\
       w2' = exported df path2 limit k w2 /\
       files w1' !! path1
       = Some (csv_header (columns df)
                 ++ flat_map csv_record
                      (take (Z.to_nat (chunk_end (len df) k)) (records df)))) /\
    (len df = 0 -> files w1' !! path1 = None).
Proof.
  intros Hf1 Hf2 Hfresh1 Hfresh2.
  destruct (Z_lt_le_dec 0 (len df)) as [Hlen | Hzero].
  - destruct (export_run df path1 limit w1 Hf1 Hlen) as (k1 & Hs1 & Hrun1).
    destruct (export_run df path2 limit w2 Hf2 Hlen) as (k2 & Hs2 & Hrun2).
    assert (k2 = k1) as -> by (eapply stops_with_unique; eassumption).
    exists (exported df path1 limit k1 w1), (exported df path2 limit k1 w2).
    split; [exact Hrun1 |]. split; [exact Hrun2 |].
    unfold exported; cbn [files]. rewrite !lookup_insert_eq.
    split; [reflexivity |]. split; [| lia].
    intros _. exists k1. split; [apply Hs1 |].
    split; [reflexivity |]. split; reflexivity.
  - assert (len df = 0) as Hlen by (unfold len in *; lia).
    destruct w1 as [f1 fl1 tr1 c1], w2 as [f2 fl2 tr2 c2]. simpl in *.
    subst fl1 fl2.
    eexists _, _.
    split; [apply export_empty, Hlen |].
    split; [apply export_empty, Hlen |].
    cbn [files]. rewrite Hfresh1, Hfresh2.
    split; [reflexivity |]. split; [lia | reflexivity].
Qed.

End ExporterClaims.

(** ** The exporter under failures of the file system *)

Section ExporterFailures.

Context {Row : Type} {fmt : CsvFormat Row}.




(** C10, as amended.  On an empty table, with no failure of the file
    system on its own, the export writes nothing and leaves the files as
    they were; its final accounting fails and the failure is swallowed:
    when there is no file at the output path the size measurement raises
    a file-not-found error and neither report is made; when a file is
    already there its size is reported, and it is the read of [end_index],
    unbound, that raises.  Either way the call returns normally without a
    rows-written report.  On a table with rows the loop leaves [end_index]
    bound and the rows-written report is made with it. *)
Theorem empty_table_accounting_fails (df : DataFrame Row) (path : string)
    (limit : Q) (w : World) :
  faults w = [] ->
  exists w',
    write_csv_with_size_limit df path limit w = (Return tt, w') /\
    (len df = 0 ->
     files w' = files w /\
     trace w' = trace w ++ [EvGetsize path] /\
     rows_reported w' = None /\
     (files w !! path = None ->
      console w' = console w ++ [ErrorWriting limit (FileNotFoundError path)]) /\
     (forall bytes, files w !! path = Some bytes ->
        console w'
        = console w ++ [InfoFinalSize (Z.of_nat (length bytes));
                        ErrorWriting limit (UnboundLocalError "end_index")])) /\
    (0 < len df ->
     exists end_index w1,
       export_loop (S (length (records df))) df path limit (len df) 0 None w
       = (Return (Some end_index), w1) /\
       rows_reported w' = Some (end_index, len df)).
Proof.
  intros Hf.
  destruct (Z_lt_le_dec 0 (len df)) as [Hlen | Hzero].
  - destruct (export_run df path limit w Hf Hlen) as (k & Hstop & Hrun).
    exists (exported df path limit k w).
    split; [exact Hrun |]. split; [lia |]. intros _.
    destruct w as [f fl tr c]. simpl in Hf. subst fl.
    destruct (export_loop_spec df path limit (S (length (records df))) 0
                f tr c None) as (k' & Hk' & Hstop' & Hloop).
    + lia.
    + lia.
    + unfold len. lia.
    + lia.
    + intros j Hj. lia.
    + assert (k' = k) as -> by (eapply stops_with_unique; eassumption).
      change (0 * chunk_size) with 0 in Hloop.
      eexists _, _. split; [exact Hloop |].
      apply rows_reported_exported.
  - assert (len df = 0) as Hlen by (unfold len in *; lia).
    destruct w as [f fl tr c]. simpl in Hf. subst fl.
    eexists. split; [apply export_empty, Hlen |].
    split; [| lia]. intros _. cbn [files trace console].
    split; [reflexivity |]. split; [reflexivity |].
    split; [| split].
    + unfold rows_reported. cbn [console].
      destruct (f !! path) as [bytes |].
      * change [InfoFinalSize ?a; ?b] with ([InfoFinalSize a] ++ [b]).
        rewrite app_assoc, last_snoc. reflexivity.
      * rewrite last_snoc. reflexivity.
    + intros ->. reflexivity.
    + intros bytes ->. reflexivity.
Qed.

(** With a size limit that is not positive, the first chunk already
    brings the file to the limit. *)
Lemma export_with_nonpositive_limit (df : DataFrame Row) (path : string)
    (limit : Q) (w : World) :
  faults w = [] -> 0 < len df -> (limit <= 0)%Q ->
  write_csv_with_size_limit df path limit w
  = (Return tt, exported df path limit 1 w).
Proof.
  intros Hf Hlen Hlimit.
  destruct (export_run df path limit w Hf Hlen)
    as (k & (Hk & Hbelow & Hat) & Hrun).
  destruct (Z.eq_dec k 1) as [-> | Hne]; [exact Hrun |].
  specialize (Hbelow 1 ltac:(lia)). apply limit_reached_false in Hbelow.
  unfold limit_bytes in Hbelow.
  assert (0 <= inject_Z (artifact_size df (chunk_end (len df) 1)))%Q
    by (change 0%Q with (inject_Z 0); rewrite <- Zle_Qle;
        unfold artifact_size; lia).
  lra.
Qed.

End ExporterFailures.

(** ** Calendar arithmetic *)

Lemma days_in_month_bounds (y m : Z) : 28 <= days_in_month y m <= 31.
Proof.
  unfold days_in_month.
  destruct m as [| [[[[|[]|]|[]|]|[[]|[]|]|]|[[[]|[]|]|[[]|[]|]|]|] |];
    try destruct (is_leap y); lia.
Qed.

Lemma succ_month_index (y m : Z) :
  1 <= m <= 12 ->
  1 <= (succ_month y m).2 <= 12 /\
  (succ_month y m).1 * 12 + ((succ_month y m).2 - 1) = y * 12 + (m - 1) + 1.
Proof.
  intros Hm. unfold succ_month.
  destruct (Z.eqb_spec m 12) as [-> | Hne]; simpl; lia.
Qed.

(** Two months in a row have at least 59 days. *)
Lemma two_months_days (y m : Z) :
  1 <= m <= 12 ->
  59 <= days_in_month y m
        + days_in_month (succ_month y m).1 (succ_month y m).2.
Proof.
  intros Hm.
  assert (m = 1 \/ m = 2 \/ m = 3 \/ m = 4 \/ m = 5 \/ m = 6 \/ m = 7 \/
          m = 8 \/ m = 9 \/ m = 10 \/ m = 11 \/ m = 12) as Hcases by lia.
  repeat (destruct Hcases as [-> | Hcases]); try subst m;
    unfold succ_month, days_in_month; simpl; try destruct (is_leap y); lia.
Qed.

Lemma roll_over_stay (fuel : nat) (y m d : Z) :
  d <= days_in_month y m -> roll_over (S fuel) y m d = (y, m, d).
Proof.
  intros H. cbn [roll_over].
  destruct (Z.leb_spec d (days_in_month y m)); [reflexivity | lia].
Qed.

Lemma roll_over_carry (fuel : nat) (y m d : Z) :
  days_in_month y m < d ->
  roll_over (S fuel) y m d
  = roll_over fuel (succ_month y m).1 (succ_month y m).2
      (d - days_in_month y m).
Proof.
  intros H. cbn [roll_over].
  destruct (Z.leb_spec d (days_in_month y m)); [lia |].
  destruct (succ_month y m). reflexivity.
Qed.

(** Thirty-two days after a day of month [m] lies in the next month or in
    the one after it, and in the next month when the day is at most 27. *)
Lemma roll_over_32 (y m d : Z) :
  1 <= m <= 12 -> 1 <= d <= days_in_month y m ->
  exists y' m' d',
    roll_over 32 y m (d + 32) = (y', m', d') /\
    1 <= m' <= 12 /\
    (y' * 12 + (m' - 1) = y * 12 + (m - 1) + 1 \/
     y' * 12 + (m' - 1) = y * 12 + (m - 1) + 2) /\
    (d <= 27 -> y' * 12 + (m' - 1) = y * 12 + (m - 1) + 1).
Proof.
  intros Hm Hd.
  pose proof (days_in_month_bounds y m) as Hb0.
  pose proof (two_months_days y m Hm) as H2.
  destruct (succ_month_index y m Hm) as [Hm1 Hi1].
  set (y1 := (succ_month y m).1) in *. set (m1 := (succ_month y m).2) in *.
  pose proof (days_in_month_bounds y1 m1) as Hb1.
  destruct (succ_month_index y1 m1 Hm1) as [Hm2 Hi2].
  set (y2 := (succ_month y1 m1).1) in *. set (m2 := (succ_month y1 m1).2) in *.
  pose proof (days_in_month_bounds y2 m2) as Hb2.
  change 32%nat with (S (S (S 29))).
  rewrite roll_over_carry by lia. fold y1 m1.
  destruct (Z_le_gt_dec (d + 32 - days_in_month y m) (days_in_month y1 m1))
    as [Hstay | Hcarry].
  - rewrite roll_over_stay by lia.
    eexists _, _, _. split; [reflexivity |]. lia.
  - rewrite roll_over_carry by lia. fold y2 m2.
    rewrite roll_over_stay by lia.
    eexists _, _, _. split; [reflexivity |]. lia.
Qed.

Lemma next_month_start_spec (d : datetime) :
  1 <= month d <= 12 -> 1 <= day d <= days_in_month (year d) (month d) ->
  day (next_month_start d) = 1 /\
  time_of_day (next_month_start d) = time_of_day d /\
  1 <= month (next_month_start d) <= 12 /\
  (month_index (next_month_start d) = month_index d + 1 \/
   month_index (next_month_start d) = month_index d + 2) /\
  (day d <= 27 -> month_index (next_month_start d) = month_index d + 1).
Proof.
  intros Hm Hd.
  destruct (roll_over_32 (year d) (month d) (day d) Hm Hd)
    as (y' & m' & d' & Hroll & Hm' & Hidx & Hsafe).
  unfold next_month_start, month_index. rewrite Hroll. simpl. auto.
Qed.

Lemma next_month_start_valid (d : datetime) :
  valid_datetime d -> year d <= 9998 -> valid_datetime (next_month_start d).
Proof.
  intros (Hy & Hm & Hd & Ht) Hy'.
  destruct (next_month_start_spec d Hm Hd) as (Hd1 & Ht1 & Hm1 & Hidx & _).
  pose proof (days_in_month_bounds (year (next_month_start d))
                (month (next_month_start d))).
  unfold valid_datetime, month_index in *. lia.
Qed.

(** Before year 9999, [advance] does not leave the calendar. *)
Lemma advance_ok (d : datetime) (w : World) :
  valid_datetime d -> year d <= 9998 ->
  advance d w = (Return (next_month_start d), w).
Proof.
  intros (Hy & Hm & Hd & Ht) Hy'.
  destruct (roll_over_32 (year d) (month d) (day d) Hm Hd)
    as (y' & m' & d' & Hroll & Hm' & Hidx & Hsafe).
  unfold advance, add_days, next_month_start, bind.
  change (Z.to_nat 32) with 32%nat. rewrite Hroll.
  destruct (Z.ltb_spec 9999 y'); [lia |]. reflexivity.
Qed.

Lemma datetime_leb_index (a b : datetime) :
  1 <= month a <= 12 -> 1 <= month b <= 12 ->
  datetime_leb a b = true ->
  month_index a <= month_index b /\ year a <= year b.
Proof.
  unfold datetime_leb, month_index. intros Ha Hb.
  destruct (Z.ltb_spec (year a) (year b)); [lia |].
  destruct (Z.ltb_spec (year b) (year a)); [discriminate |].
  destruct (Z.ltb_spec (month a) (month b)); [lia |].
  destruct (Z.ltb_spec (month b) (month a)); [discriminate |].
  lia.
Qed.

(** From the first day of a month, and a time of day not after that of
    [b], the comparison with [b] is the comparison of the months. *)
Lemma datetime_leb_first_day (a b : datetime) :
  1 <= month a <= 12 -> 1 <= month b <= 12 ->
  day a = 1 -> 1 <= day b -> time_of_day a <= time_of_day b ->
  datetime_leb a b = (month_index a <=? month_index b).
Proof.
  unfold datetime_leb, month_index. intros Ha Hb Hda Hdb Ht.
  destruct (Z.ltb_spec (year a) (year b));
    [symmetry; apply Z.leb_le; lia |].
  destruct (Z.ltb_spec (year b) (year a));
    [symmetry; apply Z.leb_gt; lia |].
  destruct (Z.ltb_spec (month a) (month b));
    [symmetry; apply Z.leb_le; lia |].
  destruct (Z.ltb_spec (month b) (month a));
    [symmetry; apply Z.leb_gt; lia |].
  destruct (Z.ltb_spec (day a) (day b));
    [symmetry; apply Z.leb_le; lia |].
  destruct (Z.ltb_spec (day b) (day a)); [lia |].
  transitivity true; [apply Z.leb_le; lia | symmetry; apply Z.leb_le; lia].
Qed.

(** From the first day of a month on, the loop visits every month up to
    that of [end_date]. *)
Lemma months_visited_from_first_day (end_date : datetime) :
  1 <= month end_date <= 12 -> 1 <= day end_date ->
  forall (fuel : nat) (current_date : datetime),
    1 <= month current_date <= 12 -> day current_date = 1 ->
    time_of_day current_date <= time_of_day end_date ->
    month_index end_date - month_index current_date + 1 < Z.of_nat fuel ->
    (0 < fuel)%nat ->
    Z.of_nat (length (months_visited fuel current_date end_date))
    = Z.max 0 (month_index end_date - month_index current_date + 1).
Proof.
  intros Hme Hde.
  induction fuel as [| fuel IH]; intros cur Hm Hd Ht Hfuel Hpos; [lia |].
  cbn [months_visited].
  rewrite (datetime_leb_first_day cur end_date) by assumption.
  destruct (Z.leb_spec (month_index cur) (month_index end_date)) as [Hle | Hgt];
    [| simpl; lia].
  pose proof (days_in_month_bounds (year cur) (month cur)) as Hb.
  destruct (next_month_start_spec cur Hm ltac:(lia))
    as (Hd' & Ht' & Hm' & _ & Hnext).
  cbn [length]. rewrite Nat2Z.inj_succ, IH; try assumption; lia.
Qed.

(** When the start day is at most 27 and the time of day of the start is
    not after that of the end, the loop visits exactly the months from
    that of the start to that of the end. *)
Lemma visited_months_count (start_date end_date : datetime) :
  valid_datetime start_date -> valid_datetime end_date ->
  datetime_leb start_date end_date = true ->
  day start_date <= 27 ->
  time_of_day start_date <= time_of_day end_date ->
  Z.of_nat (length (visited_months start_date end_date))
  = months_between start_date end_date.
Proof.
  intros (Hys & Hms & Hds & Hts) (Hye & Hme & Hde & Hte) Hle Hsafe Htod.
  destruct (datetime_leb_index start_date end_date Hms Hme Hle) as [Hidx _].
  destruct (next_month_start_spec start_date Hms Hds)
    as (Hd' & Ht' & Hm' & _ & Hnext).
  unfold visited_months, months_between. cbn [months_visited]. rewrite Hle.
  cbn [length]. rewrite Nat2Z.inj_succ.
  destruct (Z.to_nat (month_index end_date - month_index start_date + 1))
    as [| fuel] eqn:Hfuel; [lia |].
  rewrite (months_visited_from_first_day end_date Hme ltac:(lia));
    try assumption; lia.
Qed.

(** ** The fetcher *)

Section FetcherFacts.

Variable remote : string -> http_reply.

Lemma fetch_partition_answered (d : datetime) (t : string)
    (f : gmap string (list byte)) (tr : list io_event) (c : list message)
    (s : Z) (body : list byte) :
  remote (partition_url d t) = Response s body ->
  fetch_partition remote d t (mkWorld f [] tr c)
  = (Return tt,
     mkWorld (persist remote d f t) []
       (tr ++ partition_events remote d t)
       (c ++ partition_messages remote d t)).
Proof.
  intros Hr.
  unfold fetch_partition, persist, partition_events, partition_messages.
  fold (partition_url d t). rewrite Hr.
  unfold bind, say, requests_get, emit, record_event. simpl.
  fold (partition_url d t). rewrite Hr. simpl.
  destruct (s =? 200).
  - unfold makedirs, write_file, record_event, set_files. simpl.
    fold (partition_dir d t). fold (partition_path d t).
    rewrite <- ?app_assoc. reflexivity.
  - unfold emit. cbn [files faults trace console].
    rewrite <- ?app_assoc. reflexivity.
Qed.

(** A failure of the transport leaves [fetch_partition] as an exception. *)
Lemma fetch_partition_transport_error (d : datetime) (t : string) (w : World)
    (e : exn) :
  remote (partition_url d t) = TransportError e ->
  fetch_partition remote d t w
  = (Raise e,
     record_event (EvHttpGet (partition_url d t))
       (emit (MsgDownloading (partition_file_name d t)) w)).
Proof.
  intros Hr. unfold fetch_partition, bind, say, requests_get.
  fold (partition_url d t). rewrite Hr. reflexivity.
Qed.

Lemma for_each_fetch (d : datetime) (types : list string) :
  answers remote ->
  forall (f : gmap string (list byte)) (tr : list io_event) (c : list message),
    for_each types (fetch_partition remote d) (mkWorld f [] tr c)
    = (Return tt,
       mkWorld (foldl (persist remote d) f types) []
         (tr ++ flat_map (partition_events remote d) types)
         (c ++ flat_map (partition_messages remote d) types)).
Proof.
  intros Hans. induction types as [| t types IH]; intros f tr c.
  - simpl. rewrite !app_nil_r. reflexivity.
  - destruct (Hans (partition_url d t)) as (s & body & Hr).
    cbn [for_each]. unfold bind at 1.
    rewrite (fetch_partition_answered d t f tr c s body Hr).
    rewrite IH. simpl. rewrite <- !app_assoc. reflexivity.
Qed.

Lemma download_loop_answered (end_date : datetime) (types : list string) :
  answers remote -> valid_datetime end_date -> year end_date <= 9998 ->
  forall (fuel : nat) (current_date : datetime)
         (f : gmap string (list byte)) (tr : list io_event) (c : list message),
    valid_datetime current_date ->
    month_index end_date - month_index current_date + 1 < Z.of_nat fuel ->
    (0 < fuel)%nat ->
    download_loop remote fuel current_date end_date types (mkWorld f [] tr c)
    = (Return tt,
       mkWorld
         (foldl (fun f d => foldl (persist remote d) f types) f
            (months_visited fuel current_date end_date))
         []
         (tr ++ flat_map (fun d => flat_map (partition_events remote d) types)
                  (months_visited fuel current_date end_date))
         (c ++ flat_map (fun d => flat_map (partition_messages remote d) types)
                 (months_visited fuel current_date end_date))).
Proof.
  intros Hans Hend Hyend.
  induction fuel as [| fuel IH]; intros cur f tr c Hcur Hfuel Hpos; [lia |].
  cbn [download_loop months_visited].
  destruct (datetime_leb cur end_date) eqn:Hle.
  - destruct (datetime_leb_index cur end_date) as [Hidx Hyear];
      [apply Hcur | apply Hend | exact Hle |].
    unfold bind at 1. rewrite for_each_fetch by exact Hans.
    unfold bind at 1. rewrite advance_ok by (assumption || lia).
    destruct (next_month_start_spec cur) as (_ & _ & _ & Hstep & _);
      [apply Hcur | apply Hcur |].
    rewrite IH.
    + simpl. rewrite <- !app_assoc. reflexivity.
    + apply next_month_start_valid; [assumption | lia].
    + lia.
    + lia.
  - simpl. rewrite !app_nil_r. reflexivity.
Qed.

Lemma requests_made_partition (d : datetime) (types : list string) :
  requests_made (flat_map (partition_events remote d) types)
  = map (partition_url d) types.
Proof.
  unfold requests_made. induction types as [| t types IH]; [reflexivity |].
  cbn [flat_map map]. rewrite omap_app, IH.
  unfold partition_events.
  destruct (remote (partition_url d t)) as [s c |]; [destruct (s =? 200) |];
    reflexivity.
Qed.

Lemma requests_made_months (types : list string) (months : list datetime) :
  requests_made
    (flat_map (fun d => flat_map (partition_events remote d) types) months)
  = flat_map (fun d => map (partition_url d) types) months.
Proof.
  induction months as [| d months IH]; [reflexivity |].
  cbn [flat_map]. unfold requests_made in *.
  rewrite omap_app, IH. f_equal. apply requests_made_partition.
Qed.

Lemma pairs_length (types : list string) (months : list datetime) :
  Z.of_nat
    (length (flat_map (fun d => map (partition_url d) types) months))
  = Z.of_nat (length months) * Z.of_nat (length types).
Proof.
  induction months as [| d months IH]; [reflexivity |].
  cbn [flat_map length]. rewrite length_app, length_map. lia.
Qed.

Lemma first_error_app (l1 l2 : list (datetime * string)) :
  first_error remote (l1 ++ l2)
  = match first_error remote l1 with
    | Some e => Some e
    | None => first_error remote l2
    end.
Proof.
  induction l1 as [| p l1 IH]; [reflexivity |].
  cbn [app first_error]. destruct (raised_by remote p); [reflexivity | exact IH].
Qed.

Lemma attempted_app (l1 l2 : list (datetime * string)) :
  attempted remote (l1 ++ l2)
  = attempted remote l1
      ++ match first_error remote l1 with
         | Some _ => []
         | None => attempted remote l2
         end.
Proof.
  induction l1 as [| p l1 IH]; [reflexivity |].
  cbn [app attempted first_error].
  destruct (raised_by remote p); [reflexivity |].
  rewrite IH. reflexivity.
Qed.

Lemma attempted_answered (pairs : list (datetime * string)) :
  answers remote ->
  first_error remote pairs = None /\ attempted remote pairs = pairs.
Proof.
  intros Hans. induction pairs as [| p pairs [IH1 IH2]]; [split; reflexivity |].
  cbn [first_error attempted]. unfold raised_by.
  destruct (Hans (partition_url p.1 p.2)) as (s & c & ->).
  rewrite IH1, IH2. split; reflexivity.
Qed.

(** One pass of the inner loop: the partitions are fetched in order up to
    the first whose retrieval raises, and that exception ends the pass. *)
Lemma for_each_attempted (d : datetime) (types : list string) :
  forall (f : gmap string (list byte)) (tr : list io_event) (c : list message),
    for_each types (fetch_partition remote d) (mkWorld f [] tr c)
    = (outcome_of (first_error remote (map (pair d) types)),
       mkWorld
         (foldl (pair_persist remote) f (attempted remote (map (pair d) types)))
         []
         (tr ++ flat_map (pair_events remote)
                  (attempted remote (map (pair d) types)))
         (c ++ flat_map (pair_messages remote)
                 (attempted remote (map (pair d) types)))).
Proof.
  induction types as [| t types IH]; intros f tr c.
  - simpl. rewrite !app_nil_r. reflexivity.
  - cbn [for_each map first_error attempted]. unfold raised_by. cbn [fst snd].
    unfold bind at 1.
    destruct (remote (partition_url d t)) as [s body | e] eqn:Hr.
    + rewrite (fetch_partition_answered d t f tr c s body Hr).
      rewrite IH. cbn [foldl flat_map].
      unfold pair_persist at 2, pair_events at 2, pair_messages at 2.
      cbn [fst snd]. rewrite <- !app_assoc. reflexivity.
    + rewrite (fetch_partition_transport_error d t _ e Hr).
      cbn [foldl flat_map outcome_of].
      unfold pair_persist, pair_events, pair_messages, persist,
        partition_events, partition_messages, record_event, emit.
      cbn [fst snd files faults trace console]. rewrite Hr.
      rewrite !app_nil_r. reflexivity.
Qed.

(** The outer loop: the months are visited in order, until one is past
    the end or a retrieval raises. *)
Lemma download_loop_attempted (end_date : datetime) (types : list string) :
  valid_datetime end_date -> year end_date <= 9998 ->
  forall (fuel : nat) (current_date : datetime)
         (f : gmap string (list byte)) (tr : list io_event) (c : list message),
    valid_datetime current_date ->
    month_index end_date - month_index current_date + 1 < Z.of_nat fuel ->
    (0 < fuel)%nat ->
    let pairs :=
      requested_pairs (months_visited fuel current_date end_date) types in
    download_loop remote fuel current_date end_date types (mkWorld f [] tr c)
    = (outcome_of (first_error remote pairs),
       mkWorld
         (foldl (pair_persist remote) f (attempted remote pairs))
         []
         (tr ++ flat_map (pair_events remote) (attempted remote pairs))
         (c ++ flat_map (pair_messages remote) (attempted remote pairs))).
Proof.
  intros Hend Hyend.
  induction fuel as [| fuel IH]; intros cur f tr c Hcur Hfuel Hpos; [lia |].
  cbv zeta. cbn [download_loop months_visited].
  destruct (datetime_leb cur end_date) eqn:Hle.
  - destruct (datetime_leb_index cur end_date) as [Hidx Hyear];
      [apply Hcur | apply Hend | exact Hle |].
    unfold requested_pairs. cbn [flat_map].
    fold (requested_pairs (months_visited fuel (next_month_start cur) end_date)
            types).
    rewrite first_error_app, attempted_app.
    unfold bind at 1. rewrite for_each_attempted.
    destruct (first_error remote (map (pair cur) types)) as [e |] eqn:Herr.
    + cbn [outcome_of]. rewrite app_nil_r. reflexivity.
    + cbn [outcome_of].
      unfold bind at 1. rewrite advance_ok by (assumption || lia).
      destruct (next_month_start_spec cur) as (_ & _ & _ & Hstep & _);
        [apply Hcur | apply Hcur |].
      specialize (IH (next_month_start cur)). cbv zeta in IH.
      rewrite IH.
      * rewrite foldl_app, !flat_map_app, <- !app_assoc. reflexivity.
      * apply next_month_start_valid; [assumption | lia].
      * lia.
      * lia.
  - simpl. rewrite !app_nil_r. reflexivity.
Qed.

Lemma requests_made_pairs (pairs : list (datetime * string)) :
  requests_made (flat_map (pair_events remote) pairs)
  = map (fun p => partition_url p.1 p.2) pairs.
Proof.
  unfold requests_made. induction pairs as [| p pairs IH]; [reflexivity |].
  cbn [flat_map map]. rewrite omap_app, IH.
  unfold pair_events, partition_events.
  destruct (remote (partition_url p.1 p.2)) as [s c |];
    [destruct (s =? 200) |]; reflexivity.
Qed.

(** C4, as amended.  For a range that ends before year 9999 and a file
    system that does not fail, the fetch retrieves the partitions of the
    months it visits, for each data type, in order.  For each partition
    it prints the announcement and then either the success (status 200,
    content stored) or the failure with its status code (any other
    status, nothing stored), and goes on with the next partition.  A
    failure of the transport is not caught: the exception ends the fetch,
    and no partition after that one is requested.  When the remote end
    answers every request with an HTTP response, every partition is
    attempted and the fetch returns normally. *)
Theorem fetch_records_http_failures_and_continues
    (start_date end_date : datetime) (data_types : list string) (w : World) :
  valid_datetime start_date -> valid_datetime end_date ->
  year end_date <= 9998 ->
  faults w = [] ->
  let pairs :=
    requested_pairs (visited_months start_date end_date) data_types in
  exists w',
    download_nyc_taxi_data remote start_date end_date data_types w
    = (outcome_of (first_error remote pairs), w') /\
    console w'
    = console w ++ flat_map (pair_messages remote) (attempted remote pairs) /\
    requests_made (trace w')
    = requests_made (trace w)
      ++ map (fun p => partition_url p.1 p.2) (attempted remote pairs) /\
    files w' = foldl (pair_persist remote) (files w) (attempted remote pairs) /\
    (answers remote ->
     first_error remote pairs = None /\ attempted remote pairs = pairs).
Proof.
  intros Hstart Hend Hyear Hf pairs.
  destruct w as [f fl tr c]. simpl in Hf. subst fl.
  unfold download_nyc_taxi_data.
  pose proof (download_loop_attempted end_date data_types Hend Hyear
                (S (Z.to_nat
                      (month_index end_date - month_index start_date + 1)))
                start_date f tr c Hstart ltac:(lia) ltac:(lia)) as Hloop.
  cbv zeta in Hloop. fold (visited_months start_date end_date) in Hloop.
  fold pairs in Hloop. rewrite Hloop.
  eexists. split; [reflexivity |]. cbn [console trace files].
  split; [reflexivity |]. split; [| split; [reflexivity |]].
  - unfold requests_made at 1. rewrite omap_app.
    f_equal. apply requests_made_pairs.
  - intros Hans. apply attempted_answered, Hans.
Qed.

(** When moreover the start is not after the end, falls on a day of the
    month up to the 27th and at a time of day not after that of the end,
    the fetch requests one partition for each of the months between start
    and end, both included, and each data type. *)
Lemma fetch_request_count_from_safe_day
    (start_date end_date : datetime) (data_types : list string) (w : World) :
  answers remote ->
  valid_datetime start_date -> valid_datetime end_date ->
  year end_date <= 9998 ->
  faults w = [] ->
  datetime_leb start_date end_date = true ->
  day start_date <= 27 ->
  time_of_day start_date <= time_of_day end_date ->
  exists w',
    download_nyc_taxi_data remote start_date end_date data_types w
    = (Return tt, w') /\
    Z.of_nat (length (requests_made (trace w')))
    = Z.of_nat (length (requests_made (trace w)))
      + months_between start_date end_date * Z.of_nat (length data_types).
Proof.
  intros Hans Hstart Hend Hyear Hf Hle Hsafe Htod.
  destruct w as [f fl tr c]. simpl in Hf. subst fl.
  unfold download_nyc_taxi_data.
  rewrite (download_loop_answered end_date data_types Hans Hend Hyear);
    [| exact Hstart | lia | lia].
  eexists. split; [reflexivity |]. cbn [trace].
  unfold requests_made at 1. rewrite omap_app, length_app.
  fold (requests_made tr).
  fold (requests_made
          (flat_map (fun d => flat_map (partition_events remote d) data_types)
             (months_visited
                (S (Z.to_nat
                      (month_index end_date - month_index start_date + 1)))
                start_date end_date))).
  rewrite requests_made_months, Nat2Z.inj_add, pairs_length.
  fold (visited_months start_date end_date).
  rewrite visited_months_count by assumption. reflexivity.
Qed.

(** A fetch whose start is after its end makes no call and prints
    nothing. *)
Lemma fetch_of_empty_range (start_date end_date : datetime)
    (data_types : list string) (w : World) :
  datetime_leb start_date end_date = false ->
  download_nyc_taxi_data remote start_date end_date data_types w
  = (Return tt, w).
Proof.
  intros Hgt. unfold download_nyc_taxi_data. cbn [download_loop].
  rewrite Hgt. reflexivity.
Qed.

End FetcherFacts.

(** ** Configuration *)

(** C9, as amended.  Nothing validates the configuration, and nothing
    fails fast.  A fetch whose start is after its end returns normally,
    having made no call and printed nothing.  An export with a size limit
    that is not positive, on a table with rows and a file system that does
    not fail, writes the first chunk, finds the limit reached and returns
    normally, reporting the rows of that chunk.  The chunk row count is
    not part of the configuration: it is the constant 10000. *)
Theorem invalid_configuration_runs_unchecked
    {Row : Type} {fmt : CsvFormat Row} (remote : string -> http_reply)
    (start_date end_date : datetime) (data_types : list string) (w1 : World)
    (df : DataFrame Row) (path : string) (limit : Q) (w2 : World) :
  datetime_leb start_date end_date = false ->
  (limit <= 0)%Q -> faults w2 = [] -> 0 < len df ->
  download_nyc_taxi_data remote start_date end_date data_types w1
    = (Return tt, w1) /\
  (exists w2',
     write_csv_with_size_limit df path limit w2 = (Return tt, w2') /\
     w2' = exported df path limit 1 w2 /\
     chunk_writes (trace w2') = chunk_writes (trace w2) + 1 /\
     rows_reported w2' = Some (Z.min chunk_size (len df), len df)) /\
  chunk_size = 10000.
Proof.
  intros Hrange Hlimit Hf Hlen.
  split; [apply fetch_of_empty_range, Hrange |].
  split; [| reflexivity].
  exists (exported df path limit 1 w2).
  split; [apply export_with_nonpositive_limit; assumption |].
  split; [reflexivity |].
  split; [apply chunk_writes_exported; lia |].
  rewrite rows_reported_exported. unfold chunk_end.
  rewrite Z.mul_1_l. reflexivity.
Qed.

(** ** The code on concrete inputs *)

(** C3.  From 31 January 2023 to 31 March 2023, a range of three months,
    the fetch requests the partitions of January and March only: 32 days
    after 31 January is 4 March, so February is never visited. *)
Theorem fetch_from_jan_31_skips_february :
  let start_date := mkDatetime 2023 1 31 0 in
  let end_date := mkDatetime 2023 3 31 0 in
  let run :=
    download_nyc_taxi_data remote_ok start_date end_date ["yellow"%string]
      fresh_world in
  valid_datetime start_date /\ valid_datetime end_date /\
  datetime_leb start_date end_date = true /\
  months_between start_date end_date * Z.of_nat (length ["yellow"%string]) = 3 /\
  run.1 = Return tt /\
  requests_made (trace run.2)
  = [base_url +:+ "yellow_tripdata_2023-01.parquet";
     base_url +:+ "yellow_tripdata_2023-03.parquet"]%string /\
  visited_months start_date end_date
  = [mkDatetime 2023 1 31 0; mkDatetime 2023 3 1 0].
Proof.
  cbv zeta. unfold valid_datetime. cbn [year month day time_of_day].
  repeat split; try (vm_compute; (reflexivity || discriminate)).
Qed.

(** C4 fails as stated: when the second of three partitions cannot be
    reached, the exception leaves the fetch, the third partition is never
    requested, and no failure is recorded. *)
Lemma transport_error_escapes_the_fetch :
  let run :=
    download_nyc_taxi_data remote_down (mkDatetime 2024 1 1 0)
      (mkDatetime 2024 1 31 0) three_types fresh_world in
  run.1 = Raise (ConnectionError green_2024_01) /\
  requests_made (trace run.2)
  = [base_url +:+ "yellow_tripdata_2024-01.parquet"; green_2024_01]%string /\
  size (files run.2) = 1%nat /\
  failures_recorded (console run.2) = [].
Proof. cbv zeta. repeat split; vm_compute; reflexivity. Qed.

(** C9 fails as stated: a range whose start is after its end, and a
    negative size limit, are both accepted; neither call fails, and the
    export writes a chunk. *)
Lemma invalid_configuration_does_not_fail :
  let start_date := mkDatetime 2024 2 1 0 in
  let end_date := mkDatetime 2024 1 1 0 in
  let run :=
    write_csv_with_size_limit (trips 3) "nyc_taxi_subset.csv" (-1)
      fresh_world in
  datetime_leb start_date end_date = false /\
  download_nyc_taxi_data remote_ok start_date end_date ["yellow"%string]
    fresh_world = (Return tt, fresh_world) /\
  run.1 = Return tt /\
  chunk_writes (trace run.2) = 1 /\
  rows_reported run.2 = Some (3, 3).
Proof. cbv zeta. repeat split; vm_compute; reflexivity. Qed.

(** C10 fails as stated: on an empty table and no file at the output
    path, the error swallowed is the file-not-found error of the size
    measurement; [end_index] is never read. *)
Lemma empty_export_fails_on_the_missing_file :
  let run :=
    write_csv_with_size_limit (trips 0) "nyc_taxi_subset.csv" 99
      fresh_world in
  len (trips 0) = 0 /\
  run.1 = Return tt /\
  console run.2
  = [ErrorWriting 99 (FileNotFoundError "nyc_taxi_subset.csv")] /\
  console run.2 <> [ErrorWriting 99 (UnboundLocalError "end_index")].
Proof.
  cbv zeta. repeat split; try (vm_compute; reflexivity).
  vm_compute. discriminate.
Qed.


(** ** The theorems at concrete inputs *)

(** 25000 trips and a limit of 0.1 MB, which the first chunk of 10000
    rows (130035 bytes) already exceeds: that chunk is written in full and
    10000 rows are reported. *)
Lemma export_stops_after_crossing_chunk_witness :
  exists w',
    write_csv_with_size_limit (trips 25000) "nyc_taxi_subset.csv" (1 # 10)
      fresh_world = (Return tt, w') /\
    rows_reported w' = Some (10000, 25000) /\
    console w' = [InfoReachedLimit 130035; InfoFinalSize 130035;
                  InfoRowsWritten 10000 25000] /\
    chunk_writes (trace w') = 1.
Proof.
  destruct (export_stops_after_crossing_chunk (trips 25000)
              "nyc_taxi_subset.csv" (1 # 10) fresh_world)
    as (w' & Hrun & _ & Hrows); [reflexivity |].
  destruct Hrows
    as (k & Hw & Hk & Htrace & Hfile & Hrows & Hbelow & Hstop & Hat
        & Hfirst & Hover); [vm_compute; reflexivity |].
  destruct Hfirst as [Hk1 Hrep]; [vm_compute; discriminate |].
  exists w'. split; [exact Hrun |]. split; [| split].
  - rewrite Hrep; [reflexivity | vm_compute; discriminate].
  - rewrite Hw, Hk1. vm_compute. reflexivity.
  - rewrite Hw, Hk1. vm_compute. reflexivity.
Defined.

(** 25000 trips (325035 bytes) and a limit of 99 MB: everything is
    written, in three chunks. *)
Lemma export_full_below_limit_witness :
  exists w',
    write_csv_with_size_limit (trips 25000) "nyc_taxi_subset.csv" 99
      fresh_world = (Return tt, w') /\
    rows_reported w' = Some (25000, 25000) /\
    chunk_writes (trace w') = 3 /\
    console w' = [InfoFinalSize 325035; InfoRowsWritten 25000 25000].
Proof.
  destruct (export_full_below_limit (trips 25000) "nyc_taxi_subset.csv" 99
              fresh_world)
    as (w' & Hrun & Hw & Hlast & Hwrites & Hfile & Hrows & Hconsole).
  - reflexivity.
  - vm_compute. reflexivity.
  - vm_compute. reflexivity.
  - exists w'. split; [exact Hrun |]. split; [| split].
    + rewrite Hrows. vm_compute. reflexivity.
    + rewrite Hwrites. vm_compute. reflexivity.
    + rewrite Hconsole. vm_compute. reflexivity.
Defined.

(** 25000 trips and a limit of 0.2 MB (209715.2 bytes), above the size
    after one chunk (130035) and below the size after two (260035): two
    chunks are written and 20000 rows reported, a multiple of 10000. *)
Lemma rows_written_is_last_chunk_end_witness :
  exists w',
    write_csv_with_size_limit (trips 25000) "nyc_taxi_subset.csv" (1 # 5)
      fresh_world = (Return tt, w') /\
    rows_reported w' = Some (20000, 25000) /\
    chunk_writes (trace w') = 2.
Proof.
  destruct (rows_written_is_last_chunk_end (trips 25000)
              "nyc_taxi_subset.csv" (1 # 5) fresh_world)
    as (k & w' & Hrun & Hk & Hwrites & Hfile & Hrows & Hrange & Hshape & Hmod).
  - reflexivity.
  - vm_compute. reflexivity.
  - exists w'. split; [exact Hrun |].
    replace w' with
      (write_csv_with_size_limit (trips 25000) "nyc_taxi_subset.csv" (1 # 5)
         fresh_world).2 by (rewrite Hrun; reflexivity).
    split; vm_compute; reflexivity.
Defined.

(** The same call: the export stops early, and the final size reported,
    260035 bytes, is above the limit of 209715.2 bytes. *)
Lemma early_stop_reaches_limit_witness :
  exists w',
    write_csv_with_size_limit (trips 25000) "nyc_taxi_subset.csv" (1 # 5)
      fresh_world = (Return tt, w') /\
    rows_reported w' = Some (20000, 25000) /\
    final_size_reported w' = Some 260035 /\
    (limit_bytes (1 # 5) <= inject_Z 260035)%Q.
Proof.
  destruct (early_stop_reaches_limit (trips 25000)
              "nyc_taxi_subset.csv" (1 # 5) fresh_world)
    as (k & w' & Hrun & Hrows & Hsize & Hearly & Hfull & Hk & Hwrites
        & Hbelow & Hat).
  - reflexivity.
  - vm_compute. reflexivity.
  - exists w'. split; [exact Hrun |].
    replace w' with
      (write_csv_with_size_limit (trips 25000) "nyc_taxi_subset.csv" (1 # 5)
         fresh_world).2 by (rewrite Hrun; reflexivity).
    repeat split; vm_compute; (reflexivity || discriminate).
Defined.

(** Two exports of the same three trips to two different paths. *)
Lemma export_deterministic_on_fresh_sinks_witness :
  exists w1' w2',
    write_csv_with_size_limit (trips 3) "first.csv" 99 fresh_world
    = (Return tt, w1') /\
    write_csv_with_size_limit (trips 3) "second.csv" 99 fresh_world
    = (Return tt, w2') /\
    files w1' !! "first.csv"%string = files w2' !! "second.csv"%string.
Proof.
  destruct (export_deterministic_on_fresh_sinks (trips 3) 99
              "first.csv" "second.csv" fresh_world fresh_world)
    as (w1' & w2' & Hrun1 & Hrun2 & Hsame & _);
    try reflexivity.
  exists w1', w2'. split; [exact Hrun1 |]. split; [exact Hrun2 | exact Hsame].
Defined.


(** An empty table and no file at the output path. *)
Lemma empty_table_accounting_fails_witness :
  exists w',
    write_csv_with_size_limit (trips 0) "nyc_taxi_subset.csv" 99 fresh_world
    = (Return tt, w') /\
    files w' = ∅ /\
    rows_reported w' = None /\
    console w'
    = [ErrorWriting 99 (FileNotFoundError "nyc_taxi_subset.csv")].
Proof.
  destruct (empty_table_accounting_fails (trips 0) "nyc_taxi_subset.csv" 99
              fresh_world)
    as (w' & Hrun & Hempty & _).
  - reflexivity.
  - destruct Hempty as (Hfiles & Htrace & Hrows & Hmissing & _);
      [reflexivity |].
    exists w'. split; [exact Hrun |]. split; [exact Hfiles |].
    split; [exact Hrows |]. apply Hmissing. reflexivity.
Defined.

(** Three partitions of January 2024, the second answering HTTP 500: the
    other two are stored, one failure is printed, nothing is raised. *)
Lemma fetch_records_http_failures_and_continues_witness :
  exists w',
    download_nyc_taxi_data remote_500 (mkDatetime 2024 1 1 0)
      (mkDatetime 2024 1 31 0) three_types fresh_world = (Return tt, w') /\
    size (files w') = 2%nat /\
    failures_recorded (console w') = [("green_tripdata_2024-01.parquet", 500)]
    /\
    console w'
    = [MsgDownloading "yellow_tripdata_2024-01.parquet";
       MsgDownloaded "yellow_tripdata_2024-01.parquet";
       MsgDownloading "green_tripdata_2024-01.parquet";
       MsgFailed "green_tripdata_2024-01.parquet" 500;
       MsgDownloading "fhv_tripdata_2024-01.parquet";
       MsgDownloaded "fhv_tripdata_2024-01.parquet"] /\
    length (requests_made (trace w')) = 3%nat.
Proof.
  destruct (fetch_records_http_failures_and_continues remote_500
              (mkDatetime 2024 1 1 0) (mkDatetime 2024 1 31 0) three_types
              fresh_world)
    as (w' & Hrun & Hconsole & Hrequests & Hfiles & Hanswered).
  - unfold valid_datetime. simpl. lia.
  - unfold valid_datetime. simpl. lia.
  - simpl. lia.
  - reflexivity.
  - destruct Hanswered as [Hnone Hall].
    { intros url. unfold remote_500.
      destruct (url =? green_2024_01)%string; eauto. }
    rewrite Hnone in Hrun.
    exists w'. split; [exact Hrun |].
    rewrite Hfiles, Hconsole, Hrequests.
    repeat split; vm_compute; reflexivity.
Defined.

(** A range that ends before it starts, and a negative size limit. *)
Lemma invalid_configuration_runs_unchecked_witness :
  download_nyc_taxi_data remote_ok (mkDatetime 2024 2 1 0)
    (mkDatetime 2024 1 1 0) three_types fresh_world
  = (Return tt, fresh_world) /\
  exists w',
    write_csv_with_size_limit (trips 3) "nyc_taxi_subset.csv" (-1)
      fresh_world = (Return tt, w') /\
    rows_reported w' = Some (3, 3).
Proof.
  destruct (invalid_configuration_runs_unchecked remote_ok
              (mkDatetime 2024 2 1 0) (mkDatetime 2024 1 1 0) three_types
              fresh_world (trips 3) "nyc_taxi_subset.csv" (-1) fresh_world)
    as (Hfetch & (w' & Hrun & Hw & Hwrites & Hrows) & Hsize).
  - reflexivity.
  - vm_compute. discriminate.
  - reflexivity.
  - vm_compute. reflexivity.
  - split; [exact Hfetch |].
    exists w'. split; [exact Hrun |]. rewrite Hrows. reflexivity.
Defined.

(** * Further properties *)

(** ** The exporter *)

Section ExporterMore.

Context {Row : Type} {fmt : CsvFormat Row}.

(** The stopping chunk grows with the limit. *)
Lemma stops_with_mono (df : DataFrame Row) (limit1 limit2 : Q) (k1 k2 : Z) :
  (limit1 <= limit2)%Q ->
  stops_with df limit1 k1 -> stops_with df limit2 k2 -> k1 <= k2.
Proof.
  intros Hle (Hk1 & Hbelow1 & Hat1) (Hk2 & Hbelow2 & Hat2).
  destruct (Z_le_gt_dec k1 k2) as [| Hgt]; [assumption | exfalso].
  assert (limit_reached limit2 (artifact_size df (chunk_end (len df) k2))
          = true) as H2 by (apply Hat2; lia).
  assert (limit_reached limit1 (artifact_size df (chunk_end (len df) k2))
          = false) as H1 by (apply Hbelow1; lia).
  apply limit_reached_true in H2. apply limit_reached_false in H1.
  unfold limit_bytes in *. lra.
Qed.

(** X1.  Raising the limit never lowers the number of rows written: two
    exports of the same table with rows, on file systems that do not
    fail, report at least as many rows under the larger limit. *)
Theorem larger_limit_writes_no_fewer_rows (df : DataFrame Row)
    (path1 path2 : string) (limit1 limit2 : Q) (w1 w2 : World) :
  faults w1 = [] -> faults w2 = [] -> 0 < len df ->
  (limit1 <= limit2)%Q ->
  exists rows1 rows2,
    rows_reported (write_csv_with_size_limit df path1 limit1 w1).2
      = Some (rows1, len df) /\
    rows_reported (write_csv_with_size_limit df path2 limit2 w2).2
      = Some (rows2, len df) /\
    rows1 <= rows2.
Proof.
  intros Hf1 Hf2 Hlen Hle.
  destruct (export_run df path1 limit1 w1 Hf1 Hlen) as (k1 & Hs1 & ->).
  destruct (export_run df path2 limit2 w2 Hf2 Hlen) as (k2 & Hs2 & ->).
  exists (chunk_end (len df) k1), (chunk_end (len df) k2).
  cbn [snd]. rewrite !rows_reported_exported.
  split; [reflexivity |]. split; [reflexivity |].
  pose proof (stops_with_mono df limit1 limit2 k1 k2 Hle Hs1 Hs2).
  pose proof chunk_size_eq. unfold chunk_end. lia.
Qed.

(** X2.  After an export of a table with rows, on a file system that does
    not fail, the file is a prefix of the whole serialized table: the
    header and the first rows, as many as reported, each row whole; what
    is missing is exactly the serialization of the rows after them; and
    the final size reported is the length of the file. *)
Theorem export_leaves_prefix_and_reports_it (df : DataFrame Row)
    (path : string) (limit : Q) (w : World) :
  faults w = [] -> 0 < len df ->
  exists content rows_written,
    let w' := (write_csv_with_size_limit df path limit w).2 in
    files w' !! path = Some content /\
    rows_reported w' = Some (rows_written, len df) /\
    final_size_reported w' = Some (Z.of_nat (length content)) /\
    0 < rows_written <= len df /\
    content
    = csv_header (columns df)
        ++ flat_map csv_record (take (Z.to_nat rows_written) (records df)) /\
    content ++ flat_map csv_record (drop (Z.to_nat rows_written) (records df))
    = full_csv df.
Proof.
  intros Hf Hlen.
  destruct (export_run df path limit w Hf Hlen) as (k & (Hk & _) & ->).
  exists (artifact df (chunk_end (len df) k)), (chunk_end (len df) k).
  cbn [snd]. split; [unfold exported; cbn [files]; apply lookup_insert_eq |].
  split; [apply rows_reported_exported |].
  split; [apply final_size_reported_exported |].
  split; [pose proof chunk_size_eq; unfold chunk_end; lia |].
  split; [reflexivity |].
  unfold artifact, full_csv. rewrite <- app_assoc, <- flat_map_app.
  rewrite take_drop. reflexivity.
Qed.


Lemma write_sizes_app (a b : list io_event) :
  write_sizes (a ++ b) = write_sizes a ++ write_sizes b.
Proof. apply omap_app. Qed.





(** A chunk has at most [chunk_size] rows, so that its text, apart from
    the header, has at most [chunk_size] times the bytes of a row. *)
Lemma chunk_text_within (df : DataFrame Row) (bound i : Z) :
  rows_within bound df -> 0 <= bound -> 1 <= i ->
  Z.of_nat (length (chunk_text df i))
  <= (if i =? 1 then Z.of_nat (length (csv_header (columns df))) else 0)
     + chunk_size * bound.
Proof.
  intros Hrows Hbound Hi. unfold chunk_text, csv_text, iloc.
  cbn [columns records]. rewrite length_app.
  set (rows := take _ (drop _ (records df))).
  assert (Hcount : Z.of_nat (length rows) <= chunk_size).
  { unfold rows. rewrite length_take, length_drop.
    unfold chunk_end. pose proof chunk_size_eq. lia. }
  assert (Hin : Forall (fun row => Z.of_nat (length (csv_record row)) <= bound)
                  rows).
  { unfold rows. apply Forall_take, Forall_drop, Hrows. }
  assert (Hlen : Z.of_nat (length (flat_map csv_record rows))
                 <= Z.of_nat (length rows) * bound).
  { clear Hcount. induction Hin as [| row l Hrow _ IH]; [simpl; lia |].
    cbn [flat_map length]. rewrite length_app. lia. }
  destruct (i =? 1); cbn [length app]; nia.
Qed.

(** X4.  An export goes over the limit by one chunk at most.  On a table
    with rows none of which serializes to more than [bound] bytes, a file
    system that does not fail and a limit that is not negative, every
    write of the call hands over at most the header and [chunk_size] rows
    of [bound] bytes, and the final size reported is within that many
    bytes of the limit. *)
Theorem export_overshoots_by_one_chunk_at_most (df : DataFrame Row)
    (path : string) (limit : Q) (w : World) (bound : Z) :
  faults w = [] -> 0 < len df -> (0 <= limit)%Q -> rows_within bound df ->
  let chunk_bytes :=
    Z.of_nat (length (csv_header (columns df))) + chunk_size * bound in
  exists calls size,
    let w' := (write_csv_with_size_limit df path limit w).2 in
    trace w' = trace w ++ calls /\
    Forall (fun nbytes => nbytes <= chunk_bytes) (write_sizes calls) /\
    final_size_reported w' = Some size /\
    (inject_Z size <= limit_bytes limit + inject_Z chunk_bytes)%Q.
Proof.
  intros Hf Hlen Hlimit Hrows chunk_bytes.
  assert (Hbound : 0 <= bound).
  { unfold rows_within in Hrows. unfold len in Hlen.
    destruct (records df) as [| row l]; [simpl in Hlen; lia |].
    apply Forall_inv in Hrows. lia. }
  assert (Hchunk : forall i, 1 <= i ->
            Z.of_nat (length (chunk_text df i)) <= chunk_bytes).
  { intros i Hi. pose proof (chunk_text_within df bound i Hrows Hbound Hi).
    unfold chunk_bytes. destruct (i =? 1); lia. }
  destruct (export_run df path limit w Hf Hlen)
    as (k & (Hk & Hbelow & _) & ->).
  exists (chunk_io (Z.to_nat k) df path 0 ++ [EvGetsize path]),
         (artifact_size df (chunk_end (len df) k)).
  cbn [snd]. split; [reflexivity |]. split; [| split].
  - rewrite write_sizes_app. apply Forall_app. split; [| constructor].
    assert (Hgen : forall (n : nat) (i : Z), 0 <= i ->
              Forall (fun nbytes => nbytes <= chunk_bytes)
                (write_sizes (chunk_io n df path i))).
    { induction n as [| n IH]; intros i Hi; [constructor |].
      cbn [chunk_io]. unfold write_sizes. cbn [omap list_omap].
      constructor; [apply Hchunk; lia | apply IH; lia]. }
    apply Hgen. lia.
  - apply final_size_reported_exported.
  - unfold limit_bytes in *.
    destruct (Z.eq_dec k 1) as [-> | Hne].
    + unfold artifact_size. rewrite <- artifact_first_chunk.
      pose proof (Hchunk 1 ltac:(lia)) as H1. rewrite Zle_Qle in H1. lra.
    + rewrite artifact_size_step by lia.
      specialize (Hbelow (k - 1) ltac:(lia)).
      apply limit_reached_false in Hbelow. unfold limit_bytes in Hbelow.
      pose proof (chunk_text_within df bound k Hrows Hbound ltac:(lia)) as Hk'.
      replace (k =? 1) with false in Hk' by (symmetry; apply Z.eqb_neq; lia).
      assert (Z.of_nat (length (chunk_text df k)) <= chunk_bytes) as Hle
        by (unfold chunk_bytes; lia).
      rewrite Zle_Qle in Hle. rewrite inject_Z_plus. lra.
Qed.

Lemma write_file_frame (path : string) (mode : open_mode) (data : list byte)
    (w w' : World) (r : outcome unit) (other : string) :
  other <> path ->
  write_file path mode data w = (r, w') ->
  files w' !! other = files w !! other.
Proof.
  intros Hne. unfold write_file, next_fault, record_event, set_files.
  cbn [faults files trace console].
  destruct (faults w) as [| [[e [n |]] |] rest]; cbn.
  all: intros [= <- <-]; cbn [files];
    try reflexivity; apply lookup_insert_ne; congruence.
Qed.

Lemma getsize_frame (path : string) (w w' : World) (r : outcome Z) :
  getsize path w = (r, w') -> files w' = files w.
Proof.
  unfold getsize, next_fault, record_event. cbn [faults files trace console].
  destruct (faults w) as [| [e |] rest]; cbn.
  - destruct (files w !! path); intros [= <- <-]; reflexivity.
  - intros [= <- <-]; reflexivity.
  - destruct (files w !! path); intros [= <- <-]; reflexivity.
Qed.

Lemma export_loop_frame (df : DataFrame Row) (path : string) (limit : Q)
    (total : Z) (other : string) :
  other <> path ->
  forall (fuel : nat) (start : Z) (old_end : option Z) (w w' : World)
         (r : outcome (option Z)),
    export_loop fuel df path limit total start old_end w = (r, w') ->
    files w' !! other = files w !! other.
Proof.
  intros Hne. induction fuel as [| fuel IH]; intros start old_end w w' r.
  { intros [= <- <-]. reflexivity. }
  cbn [export_loop].
  destruct (start <? total); [| intros [= <- <-]; reflexivity].
  unfold to_csv, bind at 1.
  destruct (write_file _ _ _ w) as [r1 w1] eqn:E1.
  apply (write_file_frame _ _ _ _ _ _ other Hne) in E1.
  destruct r1 as [[] | e |]; try (intros [= <- <-]; exact E1).
  unfold bind at 1.
  destruct (getsize path w1) as [r2 w2] eqn:E2.
  apply getsize_frame in E2.
  destruct r2 as [size | e |];
    try (intros [= <- <-]; rewrite E2; exact E1).
  destruct (limit_reached limit size).
  - unfold bind, say, ret, emit. intros [= <- <-]. cbn [files].
    rewrite E2. exact E1.
  - intros Hloop. apply IH in Hloop. rewrite Hloop, E2. exact E1.
Qed.

(** X5.  Whatever the table, the limit and the failures of the file
    system, an export changes no file other than the one at its output
    path. *)
Theorem export_touches_only_its_output (df : DataFrame Row) (path : string)
    (limit : Q) (w : World) (other : string) :
  other <> path ->
  files (write_csv_with_size_limit df path limit w).2 !! other
  = files w !! other.
Proof.
  intros Hne. unfold write_csv_with_size_limit, try_except, export_body.
  unfold bind at 1.
  destruct (export_loop _ _ _ _ _ _ _ w) as [r1 w1] eqn:E1.
  apply (export_loop_frame _ _ _ _ other Hne) in E1.
  destruct r1 as [end_index | e |].
  - unfold bind at 1.
    destruct (getsize path w1) as [r2 w2] eqn:E2.
    apply getsize_frame in E2.
    destruct r2 as [size | e |].
    + destruct end_index as [end_index |];
        unfold bind, say, read_local, ret, raise, emit; cbn;
        rewrite E2; exact E1.
    + destruct (is_Exception e); unfold say, emit; cbn; rewrite E2; exact E1.
    + cbn. rewrite E2. exact E1.
  - destruct (is_Exception e); unfold say, emit; cbn; exact E1.
  - cbn. exact E1.
Qed.

(** X6.  Exporting again to the same path changes nothing: on a table
    with rows and a file system that does not fail, a second export of
    the same table under the same limit, run after the first, leaves the
    files as the first left them and makes the same reports. *)
Theorem export_again_changes_nothing (df : DataFrame Row) (path : string)
    (limit : Q) (w : World) :
  faults w = [] -> 0 < len df ->
  let w1 := (write_csv_with_size_limit df path limit w).2 in
  let w2 := (write_csv_with_size_limit df path limit w1).2 in
  files w2 = files w1 /\
  rows_reported w2 = rows_reported w1 /\
  final_size_reported w2 = final_size_reported w1.
Proof.
  intros Hf Hlen.
  destruct (export_run df path limit w Hf Hlen) as (k & Hs & ->).
  cbn [snd].
  destruct (export_run df path limit (exported df path limit k w)
              eq_refl Hlen) as (k' & Hs' & ->).
  assert (k' = k) as -> by (eapply stops_with_unique; eassumption).
  cbn [snd]. rewrite !rows_reported_exported, !final_size_reported_exported.
  split; [| split; reflexivity].
  unfold exported; cbn [files]. apply insert_insert_eq.
Qed.

(** X18.  An exception that is not an [Exception], such as an interrupt
    from the keyboard, is not swallowed: raised by the first chunk write,
    it leaves the export, and nothing is logged.  When it comes before
    the file is open the files are as they were; when it comes after, the
    file has been opened in mode ['w'], so that whatever it held is gone
    and it holds the part of the first chunk that had reached it. *)
Theorem export_lets_interrupts_through (df : DataFrame Row) (path : string)
    (limit : Q) (w : World) (ft : fault) (rest : list (option fault)) :
  0 < len df -> faults w = Some ft :: rest ->
  is_Exception (cause ft) = false ->
  (write_csv_with_size_limit df path limit w).1 = Raise (cause ft) /\
  console (write_csv_with_size_limit df path limit w).2 = console w /\
  files (write_csv_with_size_limit df path limit w).2
  = match reached ft with
    | None => files w
    | Some n => <[path := take n (chunk_text df 1)]> (files w)
    end.
Proof.
  intros Hlen Hf Hexc.
  unfold write_csv_with_size_limit, try_except, export_body.
  cbn [export_loop].
  replace (0 <? len df) with true by (symmetry; apply Z.ltb_lt; lia).
  unfold to_csv, write_file, bind, next_fault, record_event. cbn.
  rewrite Hf. destruct (reached ft) as [n |]; cbn; rewrite Hexc; cbn; auto.
Qed.

End ExporterMore.

(** ** Calendar stepping *)

(** The step skips a month exactly when 32 days from the day reach past
    the end of the following month. *)
Lemma next_month_start_index (d : datetime) :
  1 <= month d <= 12 -> 1 <= day d <= days_in_month (year d) (month d) ->
  let next := succ_month (year d) (month d) in
  month_index (next_month_start d)
  = month_index d
    + (if day d + 32
          <=? days_in_month (year d) (month d) + days_in_month next.1 next.2
       then 1 else 2).
Proof.
  intros Hm Hd. cbv zeta.
  pose proof (days_in_month_bounds (year d) (month d)) as Hb0.
  pose proof (two_months_days (year d) (month d) Hm) as H2.
  destruct (succ_month_index (year d) (month d) Hm) as [Hm1 Hi1].
  set (y1 := (succ_month (year d) (month d)).1) in *.
  set (m1 := (succ_month (year d) (month d)).2) in *.
  pose proof (days_in_month_bounds y1 m1) as Hb1.
  destruct (succ_month_index y1 m1 Hm1) as [Hm2 Hi2].
  set (y2 := (succ_month y1 m1).1) in *. set (m2 := (succ_month y1 m1).2) in *.
  pose proof (days_in_month_bounds y2 m2) as Hb2.
  unfold next_month_start, month_index.
  change 32%nat with (S (S (S 29))).
  rewrite roll_over_carry by lia. fold y1 m1.
  destruct (Z.leb_spec (day d + 32)
              (days_in_month (year d) (month d) + days_in_month y1 m1))
    as [Hstay | Hcarry].
  - rewrite roll_over_stay by lia. cbn [year month]. lia.
  - rewrite roll_over_carry by lia. fold y2 m2.
    rewrite roll_over_stay by lia. cbn [year month]. lia.
Qed.

Lemma datetime_leb_earlier_month (a b : datetime) :
  month_index a < month_index b ->
  1 <= month a <= 12 -> 1 <= month b <= 12 ->
  datetime_leb a b = true.
Proof.
  unfold datetime_leb, month_index. intros Hlt Ha Hb.
  destruct (Z.ltb_spec (year a) (year b)); [reflexivity |].
  destruct (Z.ltb_spec (year b) (year a)); [lia |].
  destruct (Z.ltb_spec (month a) (month b)); [reflexivity |]. lia.
Qed.

(** From the first day of a month, the loop visits the first days of the
    months that follow, one by one, and as many as there are months up to
    that of the end, or one fewer. *)
Lemma months_visited_chain (end_date : datetime) :
  1 <= month end_date <= 12 ->
  forall (fuel : nat) (current_date : datetime),
    1 <= month current_date <= 12 -> day current_date = 1 ->
    month_index end_date - month_index current_date + 1 < Z.of_nat fuel ->
    (0 < fuel)%nat ->
    let visited := months_visited fuel current_date end_date in
    month_chain visited /\
    (forall d, In d visited ->
       datetime_leb d end_date = true /\
       month_index current_date <= month_index d <= month_index end_date /\
       time_of_day d = time_of_day current_date) /\
    Z.max 0 (month_index end_date - month_index current_date)
      <= Z.of_nat (length visited)
      <= Z.max 0 (month_index end_date - month_index current_date + 1).
Proof.
  intros Hme.
  induction fuel as [| fuel IH]; intros cur Hm Hd Hfuel Hpos; [lia |].
  cbv zeta. cbn [months_visited].
  destruct (datetime_leb cur end_date) eqn:Hle.
  - destruct (datetime_leb_index cur end_date Hm Hme Hle) as [Hidx _].
    pose proof (days_in_month_bounds (year cur) (month cur)) as Hb.
    destruct (next_month_start_spec cur Hm ltac:(lia))
      as (Hd' & Ht' & Hm' & _ & Hnext).
    specialize (Hnext ltac:(lia)).
    destruct (IH (next_month_start cur) Hm' Hd' ltac:(lia) ltac:(lia))
      as (Hchain & Hin & Hcount).
    split; [| split].
    + cbn [month_chain]. split; [exact Hd |]. split; [| exact Hchain].
      destruct fuel as [| fuel']; [exact I |]. cbn [months_visited].
      destruct (datetime_leb (next_month_start cur) end_date);
        [exact Hnext | exact I].
    + intros d [<- | Hd_in]; [split; [exact Hle | split; [lia | reflexivity]] |].
      destruct (Hin d Hd_in) as (H1 & H2 & H3).
      split; [exact H1 |]. split; [lia | congruence].
    + cbn [length]. lia.
  - split; [exact I |]. split; [intros d [] |]. cbn [length].
    destruct (Z_lt_le_dec (month_index cur) (month_index end_date)) as [Hlt |];
      [| lia].
    rewrite (datetime_leb_earlier_month cur end_date Hlt Hm Hme) in Hle.
    discriminate.
Qed.

(** The months the loop visits: the start, then first days of months
    following one another, all in the range, and at most two fewer than
    the months between start and end. *)
Lemma visited_months_shape (start_date end_date : datetime) :
  valid_datetime start_date -> valid_datetime end_date ->
  datetime_leb start_date end_date = true ->
  exists rest,
    visited_months start_date end_date = start_date :: rest /\
    month_chain rest /\
    (forall d, In d rest ->
       datetime_leb d end_date = true /\
       month_index start_date < month_index d <= month_index end_date) /\
    months_between start_date end_date - 2
      <= Z.of_nat (length (visited_months start_date end_date))
      <= months_between start_date end_date.
Proof.
  intros (Hys & Hms & Hds & Hts) (Hye & Hme & Hde & Hte) Hle.
  destruct (datetime_leb_index start_date end_date Hms Hme Hle) as [Hidx _].
  destruct (next_month_start_spec start_date Hms Hds)
    as (Hd' & Ht' & Hm' & Hstep & _).
  unfold visited_months, months_between. cbn [months_visited]. rewrite Hle.
  eexists. split; [reflexivity |].
  destruct (Z.to_nat (month_index end_date - month_index start_date + 1))
    as [| fuel] eqn:Hfuel; [lia |].
  destruct (months_visited_chain end_date Hme (S fuel)
              (next_month_start start_date) Hm' Hd' ltac:(lia) ltac:(lia))
    as (Hchain & Hin & Hcount).
  split; [exact Hchain |]. split.
  - intros d Hd_in. destruct (Hin d Hd_in) as (H1 & H2 & _).
    split; [exact H1 | lia].
  - cbn [length]. lia.
Qed.

Lemma datetime_leb_first_day_late (a b : datetime) :
  1 <= month a <= 12 -> 1 <= month b <= 12 ->
  day a = 1 -> day b = 1 -> time_of_day b < time_of_day a ->
  datetime_leb a b = (month_index a <? month_index b).
Proof.
  unfold datetime_leb, month_index. intros Ha Hb Hda Hdb Ht.
  destruct (Z.ltb_spec (year a) (year b));
    [symmetry; apply Z.ltb_lt; lia |].
  destruct (Z.ltb_spec (year b) (year a));
    [symmetry; apply Z.ltb_ge; lia |].
  destruct (Z.ltb_spec (month a) (month b));
    [symmetry; apply Z.ltb_lt; lia |].
  destruct (Z.ltb_spec (month b) (month a));
    [symmetry; apply Z.ltb_ge; lia |].
  destruct (Z.ltb_spec (day a) (day b)); [lia |].
  destruct (Z.ltb_spec (day b) (day a)); [lia |].
  transitivity false; [apply Z.leb_gt; lia | symmetry; apply Z.ltb_ge; lia].
Qed.

Lemma months_visited_before_late_end (end_date : datetime) :
  1 <= month end_date <= 12 -> day end_date = 1 ->
  forall (fuel : nat) (current_date : datetime),
    1 <= month current_date <= 12 -> day current_date = 1 ->
    time_of_day end_date < time_of_day current_date ->
    month_index end_date - month_index current_date + 1 < Z.of_nat fuel ->
    (0 < fuel)%nat ->
    Z.of_nat (length (months_visited fuel current_date end_date))
    = Z.max 0 (month_index end_date - month_index current_date) /\
    (forall d, In d (months_visited fuel current_date end_date) ->
       month_index d < month_index end_date).
Proof.
  intros Hme Hde.
  induction fuel as [| fuel IH]; intros cur Hm Hd Ht Hfuel Hpos; [lia |].
  cbn [months_visited].
  rewrite (datetime_leb_first_day_late cur end_date) by assumption.
  destruct (Z.ltb_spec (month_index cur) (month_index end_date)) as [Hlt | Hge];
    [| split; [simpl; lia | intros d []]].
  pose proof (days_in_month_bounds (year cur) (month cur)) as Hb.
  destruct (next_month_start_spec cur Hm ltac:(lia))
    as (Hd' & Ht' & Hm' & _ & Hnext).
  destruct (IH (next_month_start cur) Hm' Hd' ltac:(lia) ltac:(lia)
              ltac:(lia)) as [Hcount Hin].
  split.
  - cbn [length]. rewrite Nat2Z.inj_succ, Hcount. lia.
  - intros d [<- | Hd_in]; [exact Hlt | apply Hin, Hd_in].
Qed.

Lemma roll_over_year_mono (fuel : nat) :
  forall y m d, y <= (roll_over fuel y m d).1.1.
Proof.
  induction fuel as [| fuel IH]; intros y m d; [simpl; lia |].
  cbn [roll_over]. destruct (d <=? days_in_month y m); [simpl; lia |].
  unfold succ_month. destruct (m =? 12).
  - specialize (IH (y + 1) 1 (d - days_in_month y m)). lia.
  - apply IH.
Qed.

(** X11.  One step of the loop, before year 9999, moves to the first day
    of a later month at the same time of day: the next month when 32 days
    from the day of the month do not reach past the end of the next
    month, and the month after it otherwise.  From the first day of a
    month, and from any day up to the 27th, it is always the next month. *)
Theorem advance_skips_a_month_iff (d : datetime) (w : World) :
  valid_datetime d -> year d <= 9998 ->
  let next := succ_month (year d) (month d) in
  exists d',
    advance d w = (Return d', w) /\
    day d' = 1 /\ time_of_day d' = time_of_day d /\
    month_index d'
    = month_index d
      + (if day d + 32
            <=? days_in_month (year d) (month d)
                + days_in_month next.1 next.2
         then 1 else 2) /\
    (day d <= 27 -> month_index d' = month_index d + 1).
Proof.
  intros Hv Hy. cbv zeta. exists (next_month_start d).
  split; [apply advance_ok; assumption |].
  destruct Hv as (_ & Hm & Hd & _).
  destruct (next_month_start_spec d Hm Hd) as (Hd1 & Ht & _ & _ & Hsafe).
  split; [exact Hd1 |]. split; [exact Ht |].
  split; [apply next_month_start_index; assumption | exact Hsafe].
Qed.

(** ** The fetcher: requests *)

Section FetcherMonths.

Variable remote : string -> http_reply.

(** The requests of a fetch that every partition answers. *)
Lemma fetch_requests (start_date end_date : datetime) (types : list string)
    (w : World) :
  answers remote ->
  valid_datetime start_date -> valid_datetime end_date ->
  year end_date <= 9998 -> faults w = [] ->
  exists w',
    download_nyc_taxi_data remote start_date end_date types w
    = (Return tt, w') /\
    requests_made (trace w')
    = requests_made (trace w)
      ++ flat_map (fun d => map (partition_url d) types)
           (visited_months start_date end_date).
Proof.
  intros Hans Hstart Hend Hyear Hf.
  destruct w as [f fl tr c]. simpl in Hf. subst fl.
  unfold download_nyc_taxi_data.
  rewrite (download_loop_answered remote end_date types Hans Hend Hyear);
    [| exact Hstart | lia | lia].
  eexists. split; [reflexivity |]. cbn [trace].
  unfold requests_made at 1. rewrite omap_app. f_equal.
  apply requests_made_months.
Qed.

(** X10.  When every partition answers, the fetch requests the partitions
    month by month, in order: first those of the start date, then those
    of first days of months that follow one another without a gap, each
    not after the end date and in a month after that of the start and up
    to that of the end. *)
Theorem fetch_requests_month_by_month (start_date end_date : datetime)
    (types : list string) (w : World) :
  answers remote ->
  valid_datetime start_date -> valid_datetime end_date ->
  year end_date <= 9998 -> faults w = [] ->
  datetime_leb start_date end_date = true ->
  exists w' later,
    download_nyc_taxi_data remote start_date end_date types w
    = (Return tt, w') /\
    requests_made (trace w')
    = requests_made (trace w)
      ++ flat_map (fun d => map (partition_url d) types)
           (start_date :: later) /\
    month_chain later /\
    (forall d, In d later ->
       datetime_leb d end_date = true /\
       month_index start_date < month_index d <= month_index end_date).
Proof.
  intros Hans Hstart Hend Hyear Hf Hle.
  destruct (fetch_requests start_date end_date types w Hans Hstart Hend
              Hyear Hf) as (w' & Hrun & Hreq).
  destruct (visited_months_shape start_date end_date Hstart Hend Hle)
    as (later & Hshape & Hchain & Hin & _).
  exists w', later. rewrite <- Hshape. auto.
Qed.

(** X12.  When every partition answers and the start is not after the
    end, the fetch requests the partitions of at least one month, never
    of more months than lie between start and end, and of at most two
    fewer. *)
Theorem fetch_request_count_bounds (start_date end_date : datetime)
    (types : list string) (w : World) :
  answers remote ->
  valid_datetime start_date -> valid_datetime end_date ->
  year end_date <= 9998 -> faults w = [] ->
  datetime_leb start_date end_date = true ->
  exists w' n,
    download_nyc_taxi_data remote start_date end_date types w
    = (Return tt, w') /\
    Z.of_nat (length (requests_made (trace w')))
    = Z.of_nat (length (requests_made (trace w)))
      + n * Z.of_nat (length types) /\
    1 <= n /\
    months_between start_date end_date - 2 <= n
      <= months_between start_date end_date.
Proof.
  intros Hans Hstart Hend Hyear Hf Hle.
  destruct (fetch_requests start_date end_date types w Hans Hstart Hend
              Hyear Hf) as (w' & Hrun & Hreq).
  destruct (visited_months_shape start_date end_date Hstart Hend Hle)
    as (later & Hshape & _ & _ & Hcount).
  exists w', (Z.of_nat (length (visited_months start_date end_date))).
  split; [exact Hrun |]. split; [| split; [| exact Hcount]].
  - rewrite Hreq, length_app, Nat2Z.inj_add, pairs_length. reflexivity.
  - rewrite Hshape. cbn [length]. lia.
Qed.

(** X17.  When the end date is the first day of a later month, at a time
    of day before that of the start, the month of the end date is not
    fetched: from a start day up to the 27th the fetch requests the
    partitions of one month fewer than lie between start and end, and
    none of the month of the end. *)
Theorem fetch_drops_end_month_on_earlier_time (start_date end_date : datetime)
    (types : list string) (w : World) :
  answers remote ->
  valid_datetime start_date -> valid_datetime end_date ->
  year end_date <= 9998 -> faults w = [] ->
  month_index start_date < month_index end_date ->
  day start_date <= 27 ->
  day end_date = 1 -> time_of_day end_date < time_of_day start_date ->
  exists w',
    download_nyc_taxi_data remote start_date end_date types w
    = (Return tt, w') /\
    requests_made (trace w')
    = requests_made (trace w)
      ++ flat_map (fun d => map (partition_url d) types)
           (visited_months start_date end_date) /\
    (forall d, In d (visited_months start_date end_date) ->
       month_index d < month_index end_date) /\
    Z.of_nat (length (requests_made (trace w')))
    = Z.of_nat (length (requests_made (trace w)))
      + (months_between start_date end_date - 1) * Z.of_nat (length types).
Proof.
  intros Hans Hstart Hend Hyear Hf Hlt Hsafe Hde Htod.
  destruct (fetch_requests start_date end_date types w Hans Hstart Hend
              Hyear Hf) as (w' & Hrun & Hreq).
  exists w'. split; [exact Hrun |]. split; [exact Hreq |].
  destruct Hstart as (Hys & Hms & Hds & Hts).
  destruct Hend as (Hye & Hme & Hde' & Hte).
  pose proof (datetime_leb_earlier_month start_date end_date Hlt Hms Hme)
    as Hle.
  destruct (next_month_start_spec start_date Hms Hds)
    as (Hd' & Ht' & Hm' & _ & Hnext).
  specialize (Hnext Hsafe).
  assert (Hvisited :
    visited_months start_date end_date
    = start_date
        :: months_visited
             (Z.to_nat (month_index end_date - month_index start_date + 1))
             (next_month_start start_date) end_date).
  { unfold visited_months. cbn [months_visited]. rewrite Hle. reflexivity. }
  destruct (Z.to_nat (month_index end_date - month_index start_date + 1))
    as [| fuel] eqn:Hfuel; [lia |].
  destruct (months_visited_before_late_end end_date Hme Hde (S fuel)
              (next_month_start start_date) Hm' Hd' ltac:(lia) ltac:(lia)
              ltac:(lia)) as [Hcount Hin].
  split.
  - rewrite Hvisited. intros d [<- | Hd_in]; [exact Hlt | apply Hin, Hd_in].
  - rewrite Hreq, length_app, Nat2Z.inj_add, pairs_length, Hvisited.
    cbn [length]. rewrite Nat2Z.inj_succ, Hcount.
    unfold months_between. f_equal. f_equal. lia.
Qed.

(** X13.  A fetch that starts in December 9999 requests the partitions of
    that month and then raises [OverflowError] instead of returning: the
    step to the next month leaves the calendar. *)
Theorem fetch_from_last_month_overflows (start_date end_date : datetime)
    (types : list string) (w : World) :
  answers remote ->
  valid_datetime start_date -> faults w = [] ->
  year start_date = 9999 -> month start_date = 12 ->
  datetime_leb start_date end_date = true ->
  exists w',
    download_nyc_taxi_data remote start_date end_date types w
    = (Raise (OverflowError "date value out of range"), w') /\
    requests_made (trace w')
    = requests_made (trace w) ++ map (partition_url start_date) types /\
    files w' = foldl (persist remote start_date) (files w) types.
Proof.
  intros Hans (Hys & Hms & Hds & Hts) Hf Hy Hm Hle.
  destruct w as [f fl tr c]. simpl in Hf. subst fl.
  unfold download_nyc_taxi_data. cbn [download_loop]. rewrite Hle.
  unfold bind at 1. rewrite for_each_fetch by exact Hans.
  unfold bind at 1, advance, bind at 1, add_days.
  change (Z.to_nat 32) with (S 31).
  rewrite Hy, Hm in *. change (days_in_month 9999 12) with 31 in Hds.
  rewrite roll_over_carry by (change (days_in_month 9999 12) with 31; lia).
  change (succ_month 9999 12) with (10000, 1). cbn [fst snd].
  pose proof (roll_over_year_mono 31 10000 1
                (day start_date + 32 - days_in_month 9999 12)) as Hyear.
  destruct (roll_over 31 10000 1 _) as [[y' m'] d']. cbn [fst] in Hyear.
  destruct (Z.ltb_spec 9999 y') as [_ | Habs]; [| lia].
  eexists. split; [reflexivity |]. cbn [trace files].
  split; [| reflexivity].
  unfold requests_made at 1. rewrite omap_app. f_equal.
  apply requests_made_partition.
Qed.

End FetcherMonths.

(** ** The fetcher: files *)

Section FetcherFiles.

Variable remote : string -> http_reply.

Lemma pair_persist_write (f : gmap string (list byte)) (p : datetime * string) :
  pair_persist remote f p
  = match pair_write remote p with
    | Some (k, v) => <[k := v]> f
    | None => f
    end.
Proof.
  unfold pair_persist, persist, pair_write.
  destruct (remote (partition_url p.1 p.2)) as [s c |]; [| reflexivity].
  destruct (s =? 200); reflexivity.
Qed.

(** After the partitions of some pairs were stored, a path holds what
    was stored there last, or what it held before. *)
Lemma lookup_foldl_persist (pairs : list (datetime * string))
    (f : gmap string (list byte)) (path : string) :
  foldl (pair_persist remote) f pairs !! path
  = match last_stored remote pairs path with
    | Some v => Some v
    | None => f !! path
    end.
Proof.
  induction pairs as [| p pairs IH] using rev_ind; [reflexivity |].
  unfold last_stored. rewrite !foldl_app. cbn [foldl].
  fold (last_stored remote pairs path).
  rewrite pair_persist_write.
  destruct (pair_write remote p) as [[k v] |]; [| exact IH].
  destruct (decide (k = path)) as [-> | Hne].
  - apply lookup_insert_eq.
  - rewrite lookup_insert_ne by exact Hne. exact IH.
Qed.

Lemma foldl_persist_twice (pairs : list (datetime * string))
    (f : gmap string (list byte)) :
  foldl (pair_persist remote) (foldl (pair_persist remote) f pairs) pairs
  = foldl (pair_persist remote) f pairs.
Proof.
  apply map_eq. intros path. rewrite !lookup_foldl_persist.
  destruct (last_stored remote pairs path); reflexivity.
Qed.

Lemma last_stored_none (pairs : list (datetime * string)) (path : string) :
  (forall p, In p pairs -> partition_path p.1 p.2 <> path) ->
  last_stored remote pairs path = None.
Proof.
  induction pairs as [| p pairs IH] using rev_ind; intros Hno; [reflexivity |].
  unfold last_stored. rewrite foldl_app. cbn [foldl].
  fold (last_stored remote pairs path).
  rewrite IH by (intros q Hq; apply Hno, in_or_app; left; exact Hq).
  unfold pair_write.
  destruct (remote (partition_url p.1 p.2)) as [s c |]; [| reflexivity].
  destruct (s =? 200); [| reflexivity].
  destruct (decide (partition_path p.1 p.2 = path)) as [Heq | ]; [| reflexivity].
  exfalso. apply (Hno p); [apply in_or_app; right; left; reflexivity | exact Heq].
Qed.

(** The fetch as run from a world without scheduled failures. *)
Lemma download_run (start_date end_date : datetime) (types : list string)
    (w : World) :
  valid_datetime start_date -> valid_datetime end_date ->
  year end_date <= 9998 -> faults w = [] ->
  let pairs :=
    attempted remote
      (requested_pairs (visited_months start_date end_date) types) in
  (download_nyc_taxi_data remote start_date end_date types w).2
  = mkWorld (foldl (pair_persist remote) (files w) pairs) []
      (trace w ++ flat_map (pair_events remote) pairs)
      (console w ++ flat_map (pair_messages remote) pairs).
Proof.
  intros Hstart Hend Hyear Hf. destruct w as [f fl tr c]. simpl in Hf. subst fl.
  unfold download_nyc_taxi_data.
  pose proof (download_loop_attempted remote end_date types Hend Hyear
                (S (Z.to_nat
                      (month_index end_date - month_index start_date + 1)))
                start_date f tr c Hstart ltac:(lia) ltac:(lia)) as Hloop.
  cbv zeta in Hloop. rewrite Hloop. reflexivity.
Qed.

(** X7.  Fetching again changes no file: a second fetch of the same range
    and data types from the same remote end, run after the first, leaves
    the files as the first left them. *)
Theorem fetch_again_changes_no_file (start_date end_date : datetime)
    (types : list string) (w : World) :
  valid_datetime start_date -> valid_datetime end_date ->
  year end_date <= 9998 -> faults w = [] ->
  let w1 := (download_nyc_taxi_data remote start_date end_date types w).2 in
  let w2 := (download_nyc_taxi_data remote start_date end_date types w1).2 in
  files w2 = files w1.
Proof.
  intros Hstart Hend Hyear Hf. cbv zeta.
  rewrite (download_run start_date end_date types w) by assumption.
  rewrite download_run by (assumption || reflexivity).
  cbn [files]. apply foldl_persist_twice.
Qed.

(** X8.  After a fetch, a path holds the content stored there last among
    the partitions attempted, and what it held before if none was stored
    there.  So no file is ever removed, and a path that is the path of no
    attempted partition is left as it was. *)
Theorem fetch_cache_contents (start_date end_date : datetime)
    (types : list string) (w : World) (path : string) :
  valid_datetime start_date -> valid_datetime end_date ->
  year end_date <= 9998 -> faults w = [] ->
  let pairs :=
    attempted remote
      (requested_pairs (visited_months start_date end_date) types) in
  let w' := (download_nyc_taxi_data remote start_date end_date types w).2 in
  files w' !! path
  = match last_stored remote pairs path with
    | Some v => Some v
    | None => files w !! path
    end /\
  (is_Some (files w !! path) -> is_Some (files w' !! path)) /\
  ((forall p, In p pairs -> partition_path p.1 p.2 <> path) ->
   files w' !! path = files w !! path).
Proof.
  intros Hstart Hend Hyear Hf. cbv zeta.
  rewrite (download_run start_date end_date types w) by assumption.
  cbn [files]. rewrite lookup_foldl_persist.
  split; [reflexivity |]. split.
  - intros Hsome. destruct (last_stored remote _ path); [eauto | exact Hsome].
  - intros Hno. rewrite last_stored_none by exact Hno. reflexivity.
Qed.

End FetcherFiles.

(** ** File names and paths *)

Lemma string_app_cons (c : ascii) (a b : string) :
  String c a +:+ b = String c (a +:+ b).
Proof. reflexivity. Qed.

Lemma string_length_app (a b : string) :
  String.length (a +:+ b) = (String.length a + String.length b)%nat.
Proof.
  induction a as [| c a IH]; [reflexivity |].
  rewrite string_app_cons. cbn [String.length]. rewrite IH. reflexivity.
Qed.

Lemma string_app_inj_length (a1 a2 b1 b2 : string) :
  String.length a1 = String.length a2 ->
  a1 +:+ b1 = a2 +:+ b2 -> a1 = a2 /\ b1 = b2.
Proof.
  revert a2. induction a1 as [| c a1 IH]; intros [| c2 a2] Hlen Heq;
    try discriminate.
  - split; [reflexivity | exact Heq].
  - rewrite !string_app_cons in Heq. injection Heq as -> Heq.
    cbn [String.length] in Hlen.
    destruct (IH a2 ltac:(lia) Heq) as [-> ->]. split; reflexivity.
Qed.

Lemma string_app_assoc (a b c : string) : (a +:+ b) +:+ c = a +:+ (b +:+ c).
Proof.
  induction a as [| x a IH]; [reflexivity |].
  rewrite !string_app_cons, IH. reflexivity.
Qed.

(** A common ending can be dropped. *)
Lemma string_app_inv_tail (a b c : string) : a +:+ c = b +:+ c -> a = b.
Proof.
  intros Heq.
  apply (string_app_inj_length a b c c) in Heq as [Hab _]; [exact Hab |].
  apply (f_equal String.length) in Heq. rewrite !string_length_app in Heq.
  lia.
Qed.

Lemma has_char_app (c : ascii) (a b : string) :
  has_char c (a +:+ b) = has_char c a || has_char c b.
Proof.
  induction a as [| x a IH]; [reflexivity |].
  rewrite string_app_cons. cbn [has_char]. rewrite IH, orb_assoc.
  reflexivity.
Qed.

(** A string of digits has no character that is not a digit. *)
Lemma all_digits_has_char (c : ascii) (s : string) :
  digit c = false -> all_digits s = true -> has_char c s = false.
Proof.
  intros Hc. induction s as [| x s IH]; [reflexivity |].
  cbn [all_digits has_char]. intros [Hx Hs]%andb_true_iff.
  rewrite (IH Hs), orb_false_r.
  destruct (Ascii.eqb_spec x c) as [-> | Hne]; [congruence | reflexivity].
Qed.

Lemma all_digits_app (a b : string) :
  all_digits (a +:+ b) = all_digits a && all_digits b.
Proof.
  induction a as [| x a IH]; [reflexivity |].
  rewrite string_app_cons. cbn [all_digits]. rewrite IH, andb_assoc.
  reflexivity.
Qed.

(** Two texts that agree, each made of a part without the character [c],
    then [c], then the rest, agree part by part when cut at the last
    [c]. *)
Lemma split_at_last (c : ascii) (a1 a2 b1 b2 : string) :
  has_char c b1 = false -> has_char c b2 = false ->
  a1 +:+ String c b1 = a2 +:+ String c b2 -> a1 = a2 /\ b1 = b2.
Proof.
  intros H1 H2. revert a2.
  induction a1 as [| x a1 IH]; intros [| y a2] Heq.
  - injection Heq as ->. split; reflexivity.
  - rewrite string_app_cons in Heq. injection Heq as <- Heq.
    rewrite Heq, has_char_app in H1. cbn [has_char] in H1.
    rewrite Ascii.eqb_refl, orb_true_r in H1. discriminate.
  - rewrite string_app_cons in Heq. injection Heq as -> Heq.
    rewrite <- Heq, has_char_app in H2. cbn [has_char] in H2.
    rewrite Ascii.eqb_refl, orb_true_r in H2. discriminate.
  - rewrite !string_app_cons in Heq. injection Heq as -> Heq.
    destruct (IH a2 Heq) as [-> ->]. split; reflexivity.
Qed.

(** Two texts that agree, each made of digits, then a character that is
    no digit, then the rest, agree part by part. *)
Lemma split_after_digits (c : ascii) (a1 a2 b1 b2 : string) :
  digit c = false -> all_digits a1 = true -> all_digits a2 = true ->
  a1 +:+ String c b1 = a2 +:+ String c b2 -> a1 = a2 /\ b1 = b2.
Proof.
  intros Hc. revert a2.
  induction a1 as [| x a1 IH]; intros [| y a2] H1 H2 Heq.
  - injection Heq as ->. split; reflexivity.
  - rewrite string_app_cons in Heq. injection Heq as <- _.
    cbn [all_digits] in H2. rewrite Hc in H2. discriminate.
  - rewrite string_app_cons in Heq. injection Heq as -> _.
    cbn [all_digits] in H1. rewrite Hc in H1. discriminate.
  - rewrite !string_app_cons in Heq. injection Heq as -> Heq.
    cbn [all_digits] in H1, H2.
    apply andb_true_iff in H1 as [_ H1]. apply andb_true_iff in H2 as [_ H2].
    destruct (IH a2 H1 H2 Heq) as [-> ->]. split; reflexivity.
Qed.

Lemma pretty_N_char_digit (k : N) : digit (pretty_N_char k) = true.
Proof.
  unfold pretty_N_char.
  destruct k as [| [[[[| |] | [| |] |] | [[| |] | [| |] |] |]
                    | [[[| |] | [| |] |] | [[| |] | [| |] |] |] |]];
    reflexivity.
Qed.

Lemma pretty_N_go_digit (n : N) (s : string) :
  (0 < n < 10)%N -> pretty_N_go n s = String (pretty_N_char n) s.
Proof.
  intros Hn. rewrite pretty_N_go_step by lia.
  rewrite N.div_small, N.mod_small by lia. apply pretty_N_go_0.
Qed.

Lemma pretty_N_go_suffix (n : N) :
  forall s, exists pre,
    pretty_N_go n s = pre +:+ s /\ all_digits pre = true.
Proof.
  induction (N.lt_wf_0 n) as [n _ IH]. intros s.
  destruct (N.eq_dec n 0%N) as [-> | Hne].
  - exists "". split; [apply pretty_N_go_0 | reflexivity].
  - rewrite pretty_N_go_step by (apply N.neq_0_lt_0; exact Hne).
    destruct (IH (n / 10)%N
                 ltac:(apply N.div_lt; [apply N.neq_0_lt_0; exact Hne | lia])
                 (String (pretty_N_char (n mod 10)) s)) as (pre & Hpre & Hd).
    exists (pre +:+ String (pretty_N_char (n mod 10)) "").
    rewrite Hpre, string_app_assoc. split; [reflexivity |].
    rewrite all_digits_app, Hd. cbn [all_digits].
    rewrite pretty_N_char_digit. reflexivity.
Qed.

(** The decimal rendering of a positive number is made of digits, and
    there is one at its end. *)
Lemma pretty_digits (z : Z) :
  0 < z ->
  all_digits (pretty z) = true /\
  exists pre k, pretty z = pre +:+ String (pretty_N_char k) "".
Proof.
  intros Hz. destruct z as [| p | p]; try lia.
  unfold pretty, pretty_Z, pretty, pretty_positive, pretty, pretty_N.
  destruct (decide (N.pos p = 0%N)) as [| _]; [discriminate |].
  rewrite pretty_N_go_step by reflexivity.
  destruct (pretty_N_go_suffix (N.pos p / 10)%N
              (String (pretty_N_char (N.pos p mod 10)) ""))
    as (pre & Hpre & Hd).
  rewrite Hpre. split.
  - rewrite all_digits_app, Hd. cbn [all_digits].
    rewrite pretty_N_char_digit. reflexivity.
  - exists pre, (N.pos p mod 10)%N. reflexivity.
Qed.

Lemma zfill_pretty_two_digits (n : N) :
  (n < 100)%N -> zfill 2 (pretty n) = two_digits n.
Proof.
  intros Hn. unfold pretty, pretty_N, two_digits.
  destruct (decide (n = 0%N)) as [-> | Hne]; [reflexivity |].
  assert (n / 10 < 10)%N as Hd1 by (apply N.Div0.div_lt_upper_bound; lia).
  rewrite pretty_N_go_step by (apply N.neq_0_lt_0; exact Hne).
  destruct (N.eq_dec (n / 10)%N 0%N) as [Hz1 | Hz1].
  { rewrite Hz1. rewrite pretty_N_go_0. reflexivity. }
  rewrite pretty_N_go_digit
    by (split; [apply N.neq_0_lt_0; exact Hz1 | exact Hd1]).
  reflexivity.
Qed.

Lemma two_digits_inj (n1 n2 : N) :
  (n1 < 100)%N -> (n2 < 100)%N -> two_digits n1 = two_digits n2 -> n1 = n2.
Proof.
  intros H1 H2 [= Ha Hb].
  apply pretty_N_char_inj in Ha;
    [| apply N.Div0.div_lt_upper_bound; lia
     | apply N.Div0.div_lt_upper_bound; lia].
  apply pretty_N_char_inj in Hb; [| apply N.mod_lt; lia | apply N.mod_lt; lia].
  rewrite (N.div_mod n1 10%N), (N.div_mod n2 10%N) by lia. lia.
Qed.

(** The month tag of a file name: the digits of the year, a dash, two
    digits. *)
Lemma strftime_Y_m_digits (d : datetime) :
  0 <= month d <= 99 ->
  strftime_Y_m d
  = pretty (year d) +:+ String "-" (two_digits (Z.to_N (month d))).
Proof.
  intros Hm. unfold strftime_Y_m.
  assert (Hz : forall z, 0 <= z -> pretty z = pretty (Z.to_N z)).
  { intros [| p | p] Hz; [reflexivity | reflexivity | lia]. }
  rewrite (Hz (month d)) by lia.
  rewrite zfill_pretty_two_digits by lia.
  reflexivity.
Qed.

(** December of year 999: the year takes three characters. *)
Lemma strftime_Y_m_short_year :
  strftime_Y_m (mkDatetime 999 12 1 0) = "999-12"%string.
Proof. vm_compute. reflexivity. Qed.

Lemma two_digits_all_digits (n : N) : all_digits (two_digits n) = true.
Proof.
  unfold two_digits. cbn [all_digits]. rewrite !pretty_N_char_digit.
  reflexivity.
Qed.

(** The file name cut at its last underscore. *)
Lemma partition_file_name_parts (d : datetime) (t : string) :
  0 < year d -> 0 <= month d <= 99 ->
  let tag :=
    pretty (year d)
      +:+ String "-" (two_digits (Z.to_N (month d)) +:+ ".parquet") in
  partition_file_name d t = (t +:+ "_tripdata") +:+ String "_" tag /\
  has_char "_" tag = false /\ has_char "/" tag = false.
Proof.
  intros Hy Hm tag. unfold partition_file_name.
  rewrite strftime_Y_m_digits by exact Hm.
  destruct (pretty_digits (year d) Hy) as [Hd _].
  split; [| split].
  - rewrite !string_app_assoc. reflexivity.
  - unfold tag. rewrite has_char_app.
    rewrite (all_digits_has_char "_" _ eq_refl Hd).
    cbn [has_char orb]. rewrite has_char_app.
    rewrite (all_digits_has_char "_" _ eq_refl (two_digits_all_digits _)).
    reflexivity.
  - unfold tag. rewrite has_char_app.
    rewrite (all_digits_has_char "/" _ eq_refl Hd).
    cbn [has_char orb]. rewrite has_char_app.
    rewrite (all_digits_has_char "/" _ eq_refl (two_digits_all_digits _)).
    reflexivity.
Qed.

(** X16.  The name of a partition file, and its URL, identify the
    partition: for dates the calendar has, two partitions have the same
    file name, or the same URL, exactly when they have the same data
    type, year and month. *)
Theorem partition_names_identify_partitions (d1 d2 : datetime)
    (t1 t2 : string) :
  valid_datetime d1 -> valid_datetime d2 ->
  (partition_file_name d1 t1 = partition_file_name d2 t2 <->
   t1 = t2 /\ year d1 = year d2 /\ month d1 = month d2) /\
  (partition_url d1 t1 = partition_url d2 t2 <->
   t1 = t2 /\ year d1 = year d2 /\ month d1 = month d2).
Proof.
  intros (Hy1 & Hm1 & _) (Hy2 & Hm2 & _).
  assert (Hname : partition_file_name d1 t1 = partition_file_name d2 t2 <->
                  t1 = t2 /\ year d1 = year d2 /\ month d1 = month d2).
  { split.
    - destruct (partition_file_name_parts d1 t1) as (-> & Hu1 & _);
        [lia | lia |].
      destruct (partition_file_name_parts d2 t2) as (-> & Hu2 & _);
        [lia | lia |].
      intros Heq.
      apply split_at_last in Heq as [Ht Htag]; [| exact Hu1 | exact Hu2].
      apply string_app_inv_tail in Ht.
      apply split_after_digits in Htag as [Hyear Hmonth];
        [| reflexivity
         | apply pretty_digits; lia | apply pretty_digits; lia].
      apply (inj pretty) in Hyear.
      apply string_app_inv_tail in Hmonth.
      apply two_digits_inj in Hmonth; [| lia | lia].
      split; [exact Ht |]. split; [exact Hyear | lia].
    - intros (-> & Hy & Hm). unfold partition_file_name, strftime_Y_m.
      rewrite Hy, Hm. reflexivity. }
  split; [exact Hname |].
  rewrite <- Hname. unfold partition_url. split.
  - apply (String.app_inj base_url).
  - intros ->. reflexivity.
Qed.

Lemma string_get_last (s : string) (c : ascii) :
  String.get (String.length (s +:+ String c "") - 1) (s +:+ String c "")
  = Some c.
Proof.
  induction s as [| x s IH]; [reflexivity |].
  rewrite string_app_cons. cbn [String.length].
  rewrite string_length_app in *. cbn [String.length] in *.
  replace (S (String.length s + 1) - 1)%nat with (S (String.length s))
    by lia.
  replace (String.length s + 1 - 1)%nat with (String.length s) in IH by lia.
  cbn [String.get]. destruct s as [| y s']; [reflexivity |].
  exact IH.
Qed.

Lemma path_join_relative (a b : string) (k : N) :
  relative b ->
  path_join (a +:+ String (pretty_N_char k) "") b
  = (a +:+ String (pretty_N_char k) "") +:+ "/" +:+ b.
Proof.
  intros Hrel. unfold path_join.
  assert (Hne : ((a +:+ String (pretty_N_char k) "") =? "")%string = false).
  { destruct a; reflexivity. }
  rewrite Hne, string_get_last.
  set (dir := a +:+ String (pretty_N_char k) "").
  assert (Hdigit : match pretty_N_char k with
                   | "/"%char => dir +:+ b
                   | _ => dir +:+ "/" +:+ b
                   end = dir +:+ "/" +:+ b).
  { unfold pretty_N_char.
    destruct k as [| [[[[| |] | [| |] |] | [[| |] | [| |] |] |]
                      | [[[| |] | [| |] |] | [[| |] | [| |] |] |] |]];
      reflexivity. }
  destruct b as [| [[] [] [] [] [] [] [] []] b']; try exact Hdigit.
  destruct Hrel.
Qed.

Lemma partition_file_name_relative (d : datetime) (t : string) :
  relative t -> relative (partition_file_name d t).
Proof.
  unfold partition_file_name. destruct t as [| c t']; [intros _; exact I |].
  rewrite string_app_cons. intros H. exact H.
Qed.

(** A text without a slash does not begin with one. *)
Lemma has_char_relative (s : string) : has_char "/" s = false -> relative s.
Proof.
  destruct s as [| c s']; [intros _; exact I |].
  cbn [has_char]. intros [Hc _]%orb_false_iff.
  destruct c as [[] [] [] [] [] [] [] []]; try exact I. discriminate Hc.
Qed.

(** For a data type that does not begin with a slash, the path of a
    partition is its file name inside its directory. *)
Lemma partition_path_in_dir (d : datetime) (t : string) :
  0 < year d -> relative t ->
  partition_path d t
  = partition_dir d t +:+ "/" +:+ partition_file_name d t.
Proof.
  intros Hy Hrel. unfold partition_path, partition_dir.
  destruct (pretty_digits (year d) Hy) as (_ & pre & k & Hpretty).
  rewrite Hpretty.
  rewrite <- !string_app_assoc.
  rewrite (path_join_relative _ _ k)
    by (apply partition_file_name_relative, Hrel).
  rewrite !string_app_assoc. reflexivity.
Qed.

(** X14.  The cache layout.  For a data type without a slash and a date
    the calendar has, a partition answered with status 200, on a file
    system that does not fail, is stored at
    [nyc_taxi_data/{data_type}/{year}/{file_name}]: the file name has no
    slash either, so that the file lies in the very directory the call
    has just made sure of. *)
Theorem partition_stored_in_cache_layout (remote : string -> http_reply)
    (d : datetime) (t : string) (body : list byte) (w : World) :
  let dir := "nyc_taxi_data/" +:+ t +:+ "/" +:+ pretty (year d) in
  let file_name := t +:+ "_tripdata_" +:+ strftime_Y_m d +:+ ".parquet" in
  valid_datetime d -> has_char "/" t = false -> faults w = [] ->
  remote (base_url +:+ file_name) = Response 200 body ->
  has_char "/" file_name = false /\
  (fetch_partition remote d t w).1 = Return tt /\
  trace (fetch_partition remote d t w).2
  = trace w
      ++ [EvHttpGet (base_url +:+ file_name);
          EvMakedirs dir;
          EvWrite (dir +:+ "/" +:+ file_name) ModeW
            (Z.of_nat (length body))] /\
  files (fetch_partition remote d t w).2
  = <[dir +:+ "/" +:+ file_name := body]> (files w).
Proof.
  intros dir file_name (Hy & Hm & _) Ht Hf Hr.
  change file_name with (partition_file_name d t) in *.
  change dir with (partition_dir d t).
  destruct w as [f fl tr c]. simpl in Hf. subst fl.
  split.
  { destruct (partition_file_name_parts d t) as (-> & _ & Htag);
      [lia | lia |].
    rewrite has_char_app, has_char_app, Ht. cbn [has_char]. rewrite Htag.
    reflexivity. }
  rewrite (fetch_partition_answered remote d t f tr c 200 body Hr).
  cbn [fst snd files trace].
  rewrite <- (partition_path_in_dir d t)
    by (lia || apply has_char_relative, Ht).
  split; [reflexivity |].
  unfold partition_events, persist. fold (partition_url d t) in Hr.
  rewrite Hr. split; reflexivity.
Qed.

(** X15.  A data type that begins with a slash leaves the cache: the file
    name is then an absolute path, [os.path.join] returns it alone, and a
    partition answered with status 200 is stored there, not under
    [nyc_taxi_data/]. *)
Theorem absolute_data_type_leaves_the_cache (remote : string -> http_reply)
    (d : datetime) (rest : string) (body : list byte) (w : World) :
  let data_type := String "/" rest in
  faults w = [] ->
  remote (partition_url d data_type) = Response 200 body ->
  partition_path d data_type = partition_file_name d data_type /\
  partition_file_name d data_type
  = String "/" (rest +:+ "_tripdata_" +:+ strftime_Y_m d +:+ ".parquet") /\
  (fetch_partition remote d data_type w).1 = Return tt /\
  files (fetch_partition remote d data_type w).2
  = <[partition_file_name d data_type := body]> (files w).
Proof.
  cbv zeta. intros Hf Hr. destruct w as [f fl tr c]. simpl in Hf. subst fl.
  assert (Hpath : partition_path d (String "/" rest)
                  = partition_file_name d (String "/" rest)) by reflexivity.
  split; [exact Hpath |]. split; [reflexivity |].
  rewrite (fetch_partition_answered remote d (String "/" rest) f tr c 200 body
             Hr).
  cbn [fst snd files]. split; [reflexivity |].
  unfold persist. rewrite Hr, Hpath. reflexivity.
Qed.

(** ** The further properties at concrete inputs *)

Ltac valid_date :=
  unfold valid_datetime; cbn [year month day time_of_day];
  repeat split; vm_compute; (reflexivity || discriminate).

Ltac always_answers :=
  let url := fresh "url" in
  intros url; unfold remote_ok, remote_500;
  try destruct (url =? green_2024_01)%string; eauto.

(** 25000 trips under limits of 0.1 MB and 0.2 MB: 10000 rows and 20000
    rows. *)
Lemma larger_limit_writes_no_fewer_rows_witness :
  exists rows1 rows2,
    rows_reported
      (write_csv_with_size_limit (trips 25000) "a.csv" (1 # 10) fresh_world).2
      = Some (rows1, len (trips 25000)) /\
    rows_reported
      (write_csv_with_size_limit (trips 25000) "b.csv" (1 # 5) fresh_world).2
      = Some (rows2, len (trips 25000)) /\
    rows1 <= rows2.
Proof.
  apply larger_limit_writes_no_fewer_rows;
    [reflexivity | reflexivity | vm_compute; reflexivity
    | vm_compute; discriminate].
Defined.

(** 25000 trips under a limit of 0.2 MB: the file holds the header and
    the first 20000 rows. *)
Lemma export_leaves_prefix_and_reports_it_witness :
  exists content rows_written,
    let w' :=
      (write_csv_with_size_limit (trips 25000) "nyc_taxi_subset.csv" (1 # 5)
         fresh_world).2 in
    files w' !! "nyc_taxi_subset.csv"%string = Some content /\
    rows_reported w' = Some (rows_written, len (trips 25000)) /\
    final_size_reported w' = Some (Z.of_nat (length content)) /\
    0 < rows_written <= len (trips 25000) /\
    content
    = csv_header (columns (trips 25000))
        ++ flat_map csv_record
             (take (Z.to_nat rows_written) (records (trips 25000))) /\
    content
      ++ flat_map csv_record
           (drop (Z.to_nat rows_written) (records (trips 25000)))
    = full_csv (trips 25000).
Proof.
  apply export_leaves_prefix_and_reports_it;
    [reflexivity | vm_compute; reflexivity].
Defined.


(** 25000 trips of 13 bytes each under a limit of 0.1 MB (104857.6
    bytes): no write is larger than the header and 10000 rows, 130035
    bytes, and the final size is within that of the limit. *)
Lemma export_overshoots_by_one_chunk_at_most_witness :
  let chunk_bytes :=
    Z.of_nat (length (csv_header (columns (trips 25000)))) + chunk_size * 13 in
  exists calls size,
    let w' :=
      (write_csv_with_size_limit (trips 25000) "nyc_taxi_subset.csv" (1 # 10)
         fresh_world).2 in
    trace w' = trace fresh_world ++ calls /\
    Forall (fun nbytes => nbytes <= chunk_bytes) (write_sizes calls) /\
    final_size_reported w' = Some size /\
    (inject_Z size <= limit_bytes (1 # 10) + inject_Z chunk_bytes)%Q.
Proof.
  apply export_overshoots_by_one_chunk_at_most;
    [reflexivity | vm_compute; reflexivity | vm_compute; discriminate |].
  unfold rows_within, trips. cbn [records].
  apply List.Forall_forall. intros row Hin.
  apply List.repeat_spec in Hin. subst row. vm_compute. discriminate.
Defined.

(** An export next to another file, on a disk that fails. *)
Lemma export_touches_only_its_output_witness :
  files
    (write_csv_with_size_limit (trips 3) "nyc_taxi_subset.csv" 99
       failing_world).2 !! "s3_uri.txt"%string
  = files failing_world !! "s3_uri.txt"%string.
Proof. apply export_touches_only_its_output. discriminate. Defined.

(** Three trips exported twice. *)
Lemma export_again_changes_nothing_witness :
  let w1 :=
    (write_csv_with_size_limit (trips 3) "nyc_taxi_subset.csv" 99
       fresh_world).2 in
  let w2 :=
    (write_csv_with_size_limit (trips 3) "nyc_taxi_subset.csv" 99 w1).2 in
  files w2 = files w1 /\
  rows_reported w2 = rows_reported w1 /\
  final_size_reported w2 = final_size_reported w1.
Proof.
  apply export_again_changes_nothing; [reflexivity | vm_compute; reflexivity].
Defined.

(** An interrupt at the first write of three trips, over an earlier
    export: the old content is gone and the file holds the first 20 bytes
    of the new one. *)
Lemma export_lets_interrupts_through_witness :
  (write_csv_with_size_limit (trips 3) "nyc_taxi_subset.csv" 99
     interrupted_world).1 = Raise KeyboardInterrupt /\
  console
    (write_csv_with_size_limit (trips 3) "nyc_taxi_subset.csv" 99
       interrupted_world).2 = [] /\
  files
    (write_csv_with_size_limit (trips 3) "nyc_taxi_subset.csv" 99
       interrupted_world).2 !! "nyc_taxi_subset.csv"%string
  = Some (take 20 (chunk_text (trips 3) 1)).
Proof.
  destruct (export_lets_interrupts_through (trips 3) "nyc_taxi_subset.csv" 99
              interrupted_world (mkFault KeyboardInterrupt (Some 20%nat)) [])
    as (Hraise & Hconsole & Hfiles);
    [vm_compute; reflexivity | reflexivity | reflexivity |].
  split; [exact Hraise |]. split; [exact Hconsole |].
  rewrite Hfiles. apply lookup_insert_eq.
Defined.

(** January 2024, three data types, fetched twice. *)
Lemma fetch_again_changes_no_file_witness :
  let w1 :=
    (download_nyc_taxi_data remote_500 (mkDatetime 2024 1 1 0)
       (mkDatetime 2024 1 31 0) three_types fresh_world).2 in
  let w2 :=
    (download_nyc_taxi_data remote_500 (mkDatetime 2024 1 1 0)
       (mkDatetime 2024 1 31 0) three_types w1).2 in
  files w2 = files w1.
Proof.
  apply fetch_again_changes_no_file;
    [valid_date | valid_date | simpl; lia | reflexivity].
Defined.

(** January 2024, three data types: the yellow partition is stored at
    its path. *)
Lemma fetch_cache_contents_witness :
  files
    (download_nyc_taxi_data remote_500 (mkDatetime 2024 1 1 0)
       (mkDatetime 2024 1 31 0) three_types fresh_world).2
    !! "nyc_taxi_data/yellow/2024/yellow_tripdata_2024-01.parquet"%string
  = Some [x50; x41; x52].
Proof.
  destruct (fetch_cache_contents remote_500 (mkDatetime 2024 1 1 0)
              (mkDatetime 2024 1 31 0) three_types fresh_world
              "nyc_taxi_data/yellow/2024/yellow_tripdata_2024-01.parquet")
    as (Hcontent & _);
    [valid_date | valid_date | simpl; lia | reflexivity |].
  rewrite Hcontent. vm_compute. reflexivity.
Defined.

(** From 15 December 2023 to 10 February 2024, two data types: three
    months, six requests. *)
Lemma fetch_request_count_from_safe_day_witness :
  exists w',
    download_nyc_taxi_data remote_ok (mkDatetime 2023 12 15 0)
      (mkDatetime 2024 2 10 0) ["yellow"; "green"]%string fresh_world
    = (Return tt, w') /\
    length (requests_made (trace w')) = 6%nat.
Proof.
  destruct (fetch_request_count_from_safe_day remote_ok
              (mkDatetime 2023 12 15 0) (mkDatetime 2024 2 10 0)
              ["yellow"; "green"]%string fresh_world)
    as (w' & Hrun & Hcount);
    [always_answers | valid_date | valid_date | simpl; lia | reflexivity
    | reflexivity | simpl; lia | simpl; lia |].
  exists w'. split; [exact Hrun |].
  apply Nat2Z.inj. rewrite Hcount. vm_compute. reflexivity.
Defined.

(** The same fetch: December, then January and February. *)
Lemma fetch_requests_month_by_month_witness :
  exists w' later,
    download_nyc_taxi_data remote_ok (mkDatetime 2023 12 15 0)
      (mkDatetime 2024 2 10 0) ["yellow"; "green"]%string fresh_world
    = (Return tt, w') /\
    requests_made (trace w')
    = requests_made (trace fresh_world)
      ++ flat_map (fun d => map (partition_url d) ["yellow"; "green"]%string)
           (mkDatetime 2023 12 15 0 :: later) /\
    month_chain later /\
    (forall d, In d later ->
       datetime_leb d (mkDatetime 2024 2 10 0) = true /\
       month_index (mkDatetime 2023 12 15 0) < month_index d
         <= month_index (mkDatetime 2024 2 10 0)).
Proof.
  apply fetch_requests_month_by_month;
    [always_answers | valid_date | valid_date | simpl; lia | reflexivity
    | reflexivity].
Defined.

(** One step from 31 January 2023 skips February; one from 31 March 2023
    skips April. *)
Lemma advance_skips_a_month_iff_witness :
  exists d',
    advance (mkDatetime 2023 1 31 0) fresh_world = (Return d', fresh_world) /\
    month_index d' = month_index (mkDatetime 2023 1 31 0) + 2.
Proof.
  destruct (advance_skips_a_month_iff (mkDatetime 2023 1 31 0) fresh_world)
    as (d' & Hrun & _ & _ & Hindex & _); [valid_date | simpl; lia |].
  exists d'. split; [exact Hrun |]. rewrite Hindex. reflexivity.
Defined.

(** From 31 January 2023 at noon to 1 March 2023 at midnight: three
    months in the range, one month fetched. *)
Lemma fetch_request_count_bounds_witness :
  exists w' n,
    download_nyc_taxi_data remote_ok (mkDatetime 2023 1 31 43200000000)
      (mkDatetime 2023 3 1 0) ["yellow"%string] fresh_world
    = (Return tt, w') /\
    Z.of_nat (length (requests_made (trace w')))
    = Z.of_nat (length (requests_made (trace fresh_world)))
      + n * Z.of_nat (length ["yellow"%string]) /\
    1 <= n /\
    months_between (mkDatetime 2023 1 31 43200000000) (mkDatetime 2023 3 1 0)
      - 2 <= n
      <= months_between (mkDatetime 2023 1 31 43200000000)
           (mkDatetime 2023 3 1 0).
Proof.
  apply fetch_request_count_bounds;
    [always_answers | valid_date | valid_date | simpl; lia | reflexivity
    | reflexivity].
Defined.

(** From 1 January 2024 at noon to 1 March 2024 at midnight: January and
    February are fetched, March is not. *)
Lemma fetch_drops_end_month_on_earlier_time_witness :
  exists w',
    download_nyc_taxi_data remote_ok (mkDatetime 2024 1 1 43200000000)
      (mkDatetime 2024 3 1 0) ["yellow"%string] fresh_world
    = (Return tt, w') /\
    requests_made (trace w')
    = [base_url +:+ "yellow_tripdata_2024-01.parquet";
       base_url +:+ "yellow_tripdata_2024-02.parquet"]%string.
Proof.
  destruct (fetch_drops_end_month_on_earlier_time remote_ok
              (mkDatetime 2024 1 1 43200000000) (mkDatetime 2024 3 1 0)
              ["yellow"%string] fresh_world)
    as (w' & Hrun & Hrequests & _);
    [always_answers | valid_date | valid_date | simpl; lia | reflexivity
    | vm_compute; reflexivity | simpl; lia | reflexivity
    | vm_compute; reflexivity |].
  exists w'. split; [exact Hrun |]. rewrite Hrequests. vm_compute.
  reflexivity.
Defined.

(** December 9999. *)
Lemma fetch_from_last_month_overflows_witness :
  exists w',
    download_nyc_taxi_data remote_ok (mkDatetime 9999 12 1 0)
      (mkDatetime 9999 12 31 0) ["yellow"%string] fresh_world
    = (Raise (OverflowError "date value out of range"), w') /\
    requests_made (trace w')
    = [base_url +:+ "yellow_tripdata_9999-12.parquet"]%string.
Proof.
  destruct (fetch_from_last_month_overflows remote_ok
              (mkDatetime 9999 12 1 0) (mkDatetime 9999 12 31 0)
              ["yellow"%string] fresh_world)
    as (w' & Hrun & Hrequests & _);
    [always_answers | valid_date | reflexivity | reflexivity | reflexivity
    | reflexivity |].
  exists w'. split; [exact Hrun |]. rewrite Hrequests. vm_compute.
  reflexivity.
Defined.

(** The yellow partition of January 2024: requested, its directory made
    sure of, and stored in it. *)
Lemma partition_stored_in_cache_layout_witness :
  let run :=
    fetch_partition remote_ok (mkDatetime 2024 1 1 0) "yellow" fresh_world in
  run.1 = Return tt /\
  trace run.2
  = [EvHttpGet
       "https://d37ci6vzurychx.cloudfront.net/trip-data/yellow_tripdata_2024-01.parquet";
     EvMakedirs "nyc_taxi_data/yellow/2024";
     EvWrite "nyc_taxi_data/yellow/2024/yellow_tripdata_2024-01.parquet"
       ModeW 3] /\
  files run.2
    !! "nyc_taxi_data/yellow/2024/yellow_tripdata_2024-01.parquet"%string
  = Some [x50; x41; x52].
Proof.
  destruct (partition_stored_in_cache_layout remote_ok (mkDatetime 2024 1 1 0)
              "yellow" [x50; x41; x52] fresh_world)
    as (_ & Hret & Htrace & Hfiles);
    [valid_date | reflexivity | reflexivity | reflexivity |].
  cbv zeta. split; [exact Hret |]. split; [exact Htrace |].
  rewrite Hfiles. apply lookup_insert_eq.
Defined.

(** A data type that is an absolute path. *)
Lemma absolute_data_type_leaves_the_cache_witness :
  files (fetch_partition remote_ok (mkDatetime 2024 1 1 0) "/tmp/x"
           fresh_world).2
    !! "/tmp/x_tripdata_2024-01.parquet"%string
  = Some [x50; x41; x52].
Proof.
  destruct (absolute_data_type_leaves_the_cache remote_ok
              (mkDatetime 2024 1 1 0) "tmp/x" [x50; x41; x52] fresh_world)
    as (_ & _ & _ & Hfiles); [reflexivity | reflexivity |].
  rewrite Hfiles. vm_compute. reflexivity.
Defined.

(** Two days of January 2024 name the same file; January and February do
    not. *)
Lemma partition_names_identify_partitions_witness :
  partition_file_name (mkDatetime 2024 1 1 0) "yellow"
  = partition_file_name (mkDatetime 2024 1 31 0) "yellow" /\
  partition_url (mkDatetime 2024 1 1 0) "yellow"
  <> partition_url (mkDatetime 2024 2 1 0) "yellow".
Proof.
  split.
  - apply (partition_names_identify_partitions (mkDatetime 2024 1 1 0)
             (mkDatetime 2024 1 31 0) "yellow" "yellow");
      [valid_date | valid_date |]. repeat split.
  - intros Heq.
    apply (partition_names_identify_partitions (mkDatetime 2024 1 1 0)
             (mkDatetime 2024 2 1 0) "yellow" "yellow") in Heq;
      [| valid_date | valid_date].
    destruct Heq as (_ & _ & Hmonth). discriminate Hmonth.
Defined.
